(** * clang/types/parser: the C qualType parser of c2go

    A shallow embedding of [src/clang/types/parser/parser.go] and the
    properties of its recursive-descent parser.

    The Go code threads a mutable [parser] (scanner, current token) through
    every call and reports failure through a returned [error] or through
    [log.Fatalln], which ends the process.  Here the parser is a record that
    is passed and returned explicitly, and a call yields a [result]: a value
    with the parser after the call, a returned error, or a process abort. *)

From Stdlib Require Import ZArith List String Ascii Bool Lia Permutation.
Import ListNotations.
Local Open Scope string_scope.
Local Open Scope Z_scope.
Set Warnings "-register-all".

(** ** go/types: the type representation the parser builds *)

(** The kinds of [types.Typ] the parser refers to. *)
Inductive BasicKind : Set :=
  | Int8 | Int16 | Int32 | Int64
  | Uint8 | Uint16 | Uint32 | Uint64
  | Float32 | Float64 | Complex64 | Complex128
  | UnsafePointer.

(** [types.Type].  A Go [types.Type] that may be [nil] is an [option type].
    [Signature] keeps the parameter types in order (the parameters have no
    names) and its result tuple, [None] for the nil tuple.  [Array] keeps the
    length the code passes to [types.NewArray], [-1] for [[]].

    Modelled from the spec: [ctypes.Void] is declared in the package
    clang/types, which is not part of the sources at hand; the spec has it as
    the explicit void marker, a type value of its own. *)
Inductive type : Set :=
  | Basic (k : BasicKind)
  | Named (name : string)
  | Pointer (elem : type)
  | Array (elem : type) (len : Z)
  | Signature (params : list type) (results : option type)
  | Void.

(** Modelled from the spec: [ctypes.NotVoid], missing with [ctypes.Void];
    a type is not void when it is not the void marker. *)
Definition NotVoid (t : type) : bool :=
  match t with
  | Void => false
  | _ => true
  end.

(** The platform-dependent types of the package clang/types, whose
    declarations are missing: they are taken as given. *)
Record CTypes : Set := mkCTypes {
  Long : type;
  Ulong : type;
  LongDouble : type;
  Int128 : type;
  Uint128 : type
}.

(** [types.Scope]: the chain of scopes from the innermost to the outermost,
    each a table from names to the type of the object declared. *)
Definition Scope : Set := list (list (string * type)).

Fixpoint Lookup (tbl : list (string * type)) (name : string) : option type :=
  match tbl with
  | [] => None
  | (n, t) :: tbl' => if String.eqb n name then Some t else Lookup tbl' name
  end.

(** [scope.LookupParent(name, token.NoPos)]: the first scope of the chain that
    declares the name decides. *)
Fixpoint LookupParent (sc : Scope) (name : string) : option type :=
  match sc with
  | [] => None
  | tbl :: parent =>
      match Lookup tbl name with
      | Some t => Some t
      | None => LookupParent parent name
      end
  end.

(** ** go/token and the scanner *)

Inductive Token : Set :=
  | ILLEGAL | EOF | IDENT | INT
  | MUL | XOR | LPAREN | RPAREN | LBRACK | RBRACK | COMMA.

(** [token.Token.String]. *)
Definition Token_String (t : Token) : string :=
  match t with
  | ILLEGAL => "ILLEGAL" | EOF => "EOF" | IDENT => "IDENT" | INT => "INT"
  | MUL => "*" | XOR => "^" | LPAREN => "(" | RPAREN => ")"
  | LBRACK => "[" | RBRACK => "]" | COMMA => ","
  end.

Definition Token_eqb (a b : Token) : bool :=
  match a, b with
  | ILLEGAL, ILLEGAL | EOF, EOF | IDENT, IDENT | INT, INT
  | MUL, MUL | XOR, XOR | LPAREN, LPAREN | RPAREN, RPAREN
  | LBRACK, LBRACK | RBRACK, RBRACK | COMMA, COMMA => true
  | _, _ => false
  end.

(** What one call of [Scan] returns: the offset of the token in the source
    (a [token.Pos], counted from the base of the file), its kind and its
    text. *)
Record scanned : Set := mkScanned {
  sc_pos : Z;
  sc_tok : Token;
  sc_lit : string
}.

(** Modelled from the spec: the scanner of the package clang/types/scanner,
    which is missing, hands out the tokens of the source one after the
    other and keeps the source text for the errors.  It reads from left to
    right and nothing the parser does changes what it returns, so its state
    is the source text and the list of the tokens still to come. *)
Record Scanner : Set := mkScanner {
  Source : string;
  pending : list scanned
}.

(** Modelled from the spec: [Scanner.Scan] gives the next token; at the end
    of the source, it gives [EOF] at the offset of the end, again and
    again. *)
Definition Scan (s : Scanner) : Scanner * scanned :=
  match pending s with
  | [] => (s, mkScanned (Z.of_nat (String.length (Source s))) EOF "")
  | x :: rest => (mkScanner (Source s) rest, x)
  end.

(** Modelled from the spec: the tokenizer of the package clang/types/scanner
    is missing; the spec has it turn the text into identifiers, integer
    literals and the symbols [* ( ) [ ] , ^], each with its position.  Blanks
    separate tokens; any other character is an illegal token of its own. *)
Definition isLetter (c : ascii) : bool :=
  let n := nat_of_ascii c in
  ((97 <=? n) && (n <=? 122) || (65 <=? n) && (n <=? 90) || (n =? 95))%nat.

Definition isDecimal (c : ascii) : bool :=
  let n := nat_of_ascii c in ((48 <=? n) && (n <=? 57))%nat.

Definition isBlank (c : ascii) : bool :=
  let n := nat_of_ascii c in
  ((n =? 32) || (n =? 9) || (n =? 10) || (n =? 13))%nat.

Definition symbol (c : ascii) : Token :=
  let n := nat_of_ascii c in
  if (n =? 42)%nat then MUL
  else if (n =? 94)%nat then XOR
  else if (n =? 40)%nat then LPAREN
  else if (n =? 41)%nat then RPAREN
  else if (n =? 91)%nat then LBRACK
  else if (n =? 93)%nat then RBRACK
  else if (n =? 44)%nat then COMMA
  else ILLEGAL.

Definition flush (cur : option scanned) : list scanned :=
  match cur with
  | Some x => [x]
  | None => []
  end.

Definition extend (x : scanned) (c : ascii) : scanned :=
  mkScanned (sc_pos x) (sc_tok x) (sc_lit x ++ String c "").

(** Modelled from the spec: the tokens of [text], as said above; [cur] is
    the identifier or number being read, [off] the offset of the first
    character of [text]. *)
Fixpoint scanAll (off : Z) (text : string) (cur : option scanned) : list scanned :=
  match text with
  | EmptyString => flush cur
  | String c text' =>
      let continues :=
        match cur with
        | Some x =>
            match sc_tok x with
            | IDENT => isLetter c || isDecimal c
            | INT => isDecimal c
            | _ => false
            end
        | None => false
        end in
      match cur, continues with
      | Some x, true => scanAll (off + 1) text' (Some (extend x c))
      | _, _ =>
          (flush cur ++
           if isBlank c then scanAll (off + 1) text' None
           else if isLetter c then
             scanAll (off + 1) text' (Some (mkScanned off IDENT (String c "")))
           else if isDecimal c then
             scanAll (off + 1) text' (Some (mkScanned off INT (String c "")))
           else mkScanned off (symbol c) (String c "") :: scanAll (off + 1) text' None)%list
      end
  end.

(** Modelled from the spec: [Scanner.Init] sets the scanner on the text. *)
Definition Init (qualType : string) : Scanner :=
  mkScanner qualType (scanAll 0 qualType None).

(** ** The parser's state, errors and results *)

(** The fields [pkg] and [scope] of the Go [parser] are set once, when
    [ParseType] makes the parser, and never assigned again: the scope is a
    parameter of the functions that consult it, and the record keeps the
    fields that change. *)
Record parser : Set := mkParser {
  s : Scanner;
  pos : Z;
  tok : Token;
  lit : string
}.

(** [ErrNotFound], [ErrInvalidType] and [io.ErrUnexpectedEOF] are error
    values without fields; a [ParseTypeError] carries the source text, the
    position and the message. *)
Inductive error : Set :=
  | ErrNotFound
  | ErrInvalidType
  | ErrUnexpectedEOF
  | ParseTypeError (QualType : string) (Pos : Z) (ErrMsg : string).

(** The ways the process ends: the three places where the code calls
    [log.Fatalln], and the run-time panic of an index outside [intTypes]. *)
Inductive fatal : Set :=
  | FatalInvalidType      (* lookupType: TODO - invalid type *)
  | FatalStructUnion      (* c.types.ParseType: struct/union - TODO *)
  | FatalUnknownToken     (* c.types.ParseType: unknown - *)
  | PanicIndex.           (* run-time panic: index out of range *)

(** The outcome of a call: [Ok a p] returns [a] and leaves the parser [p];
    [Err e] returns the error [e] (the callers look at nothing else then, so
    the other values returned with an error are not kept); [Fatal f] ends
    the process; [OutOfFuel] says that the bound on the number of steps was
    too small. *)
Inductive result (A : Type) : Type :=
  | Ok (a : A) (p : parser)
  | Err (e : error)
  | Fatal (f : fatal)
  | OutOfFuel.

Arguments Ok {A} a p.
Arguments Err {A} e.
Arguments Fatal {A} f.
Arguments OutOfFuel {A}.

Definition bind {A B : Type} (m : result A) (k : A -> parser -> result B) : result B :=
  match m with
  | Ok a p => k a p
  | Err e => Err e
  | Fatal f => Fatal f
  | OutOfFuel => OutOfFuel
  end.

Notation "'let*' ( x , p ) ':=' m 'in' k" :=
  (bind m (fun x p => k))
  (at level 10, x name, p name, m at level 100, k at level 200).

(** [p.next()]. *)
Definition next (p : parser) : parser :=
  let (s', x) := Scan (s p) in
  mkParser s' (sc_pos x) (sc_tok x) (sc_lit x).

(** [p.tok = token.EOF]. *)
Definition setEOF (p : parser) : parser :=
  mkParser (s p) (pos p) EOF (lit p).

(** [p.newError(errMsg)]. *)
Definition newError (p : parser) (errMsg : string) : error :=
  ParseTypeError (Source (s p)) (pos p) errMsg.

(** [p.expect(tokExp)]: the parser after [next], or the error. *)
Definition expect (tokExp : Token) (p : parser) : result unit :=
  let p := next p in
  if Token_eqb (tok p) tokExp then Ok tt p
  else Err (newError p ("expect " ++ Token_String tokExp ++ ", got " ++ Token_String (tok p))).

(** [p.expect2(tokExp, tokExp2)]; the message names [tokExp] only. *)
Definition expect2 (tokExp tokExp2 : Token) (p : parser) : parser * option error :=
  let p := next p in
  if Token_eqb (tok p) tokExp || Token_eqb (tok p) tokExp2 then (p, None)
  else (p, Some (newError p ("expect " ++ Token_String tokExp ++ ", got " ++ Token_String (tok p)))).

(** ** The primitive resolver *)

Definition FlagIsParam : Z := 1.
Definition FlagGetRetType : Z := 2.

Definition isParam (flags : Z) : bool := negb (Z.land flags FlagIsParam =? 0).
Definition getRetType (flags : Z) : bool := negb (Z.land flags FlagGetRetType =? 0).

Definition flagShort : Z := 1.
Definition flagLong : Z := 2.
Definition flagLongLong : Z := 4.
Definition flagUnsigned : Z := 8.
Definition flagSigned : Z := 16.
Definition flagComplex : Z := 32.

Section Parser.

Variable ct : CTypes.
Variable scope : Scope.

(** [intTypes]: an array of sixteen entries, [None] where the Go array holds
    [nil] (the entries that are not listed and the entry 15). *)
Definition intTypes : list (option type) :=
  [ Some (Basic Int32);   (* 0 *)
    Some (Basic Int16);   (* flagShort *)
    Some (Long ct);       (* flagLong *)
    None; None; None;
    Some (Basic Int64);   (* flagLong | flagLongLong *)
    None;
    Some (Basic Uint32);  (* flagUnsigned *)
    Some (Basic Uint16);  (* flagShort | flagUnsigned *)
    Some (Ulong ct);      (* flagLong | flagUnsigned *)
    None; None; None;
    Some (Basic Uint64);  (* flagLong | flagLongLong | flagUnsigned *)
    None ].               (* flagShort | flagLong | flagLongLong | flagUnsigned: nil *)

(** [intTypes[i]]; [None] when the index is outside the array. *)
Definition intTypes_at (i : Z) : option (option type) :=
  if (0 <=? i) && (i <? 16) then nth_error intTypes (Z.to_nat i) else None.

(** [p.lookupType(lit, flags)].  With flags pending, a pair of keyword and
    flags that the switch does not return from reaches [log.Fatalln]; the
    [return nil, ErrInvalidType] behind it is never run. *)
Definition lookupType (p : parser) (lit : string) (flags : Z) : result type :=
  if negb (flags =? 0) then
    if negb (Z.land flags flagComplex =? 0) then
      if String.eqb lit "float" then Ok (Basic Complex64) p
      else if String.eqb lit "double" then Ok (Basic Complex128) p
      else Fatal FatalInvalidType
    else
      if String.eqb lit "int" then
        match intTypes_at (Z.ldiff flags flagSigned) with
        | None => Fatal PanicIndex
        | Some (Some t) => Ok t p
        | Some None => Fatal FatalInvalidType
        end
      else if String.eqb lit "char" then
        if flags =? flagUnsigned then Ok (Basic Uint8) p
        else if flags =? flagSigned then Ok (Basic Int8) p
        else Fatal FatalInvalidType
      else if String.eqb lit "double" then
        if flags =? flagLong then Ok (LongDouble ct) p
        else Fatal FatalInvalidType
      else if String.eqb lit "__int128" then
        if flags =? flagSigned then Ok (Int128 ct) p
        else if flags =? flagUnsigned then Ok (Uint128 ct) p
        else Fatal FatalInvalidType
      else Fatal FatalInvalidType
  else if String.eqb lit "int" then Ok (Basic Int32) p
  else
    match LookupParent scope lit with
    | Some t => Ok t p
    | None => Err ErrNotFound
    end.

(** ** The declarator composer *)

(** [p.newPointer(t)]. *)
Definition newPointer (t : type) : type :=
  if NotVoid t then Pointer t else Basic UnsafePointer.

(** [strconv.ParseInt(lit, 10, 64)]: an optional sign and decimal digits, in
    the range of [int64]; otherwise the text of the error. *)
Fixpoint digits (text : string) (acc : Z) : option Z :=
  match text with
  | EmptyString => Some acc
  | String c text' =>
      if isDecimal c
      then digits text' (10 * acc + Z.of_nat (nat_of_ascii c) - 48)
      else None
  end.

Definition quote : string := String (ascii_of_nat 34) "".

Definition ParseInt_error (text reason : string) : string :=
  "strconv.ParseInt: parsing " ++ quote ++ text ++ quote ++ ": " ++ reason.

Definition ParseInt (text : string) : Z + string :=
  let (neg, body) :=
    match text with
    | String c rest =>
        if Ascii.eqb c "-"%char then (true, rest)
        else if Ascii.eqb c "+"%char then (false, rest)
        else (false, text)
    | EmptyString => (false, text)
    end in
  match body with
  | EmptyString => inr (ParseInt_error text "invalid syntax")
  | _ =>
      match digits body 0 with
      | None => inr (ParseInt_error text "invalid syntax")
      | Some un =>
          if negb neg && (2 ^ 63 <=? un) then inr (ParseInt_error text "value out of range")
          else if neg && (2 ^ 63 <? un) then inr (ParseInt_error text "value out of range")
          else inl (if neg then - un else un)
      end
  end.

(** [p.parseArray(t, inFlags)]: one bracket group; the current token is the
    opening bracket. *)
Definition parseArray (t : option type) (inFlags : Z) (p : parser) : result type :=
  match t with
  | None => Err (newError p "array to nil")
  | Some t =>
      let p := next p in
      let* (n, p) :=
        match tok p with
        | RBRACK => Ok (-1) p
        | INT =>
            match ParseInt (lit p) with
            | inr msg => Err (newError p msg)
            | inl n => let* (_, p) := expect RBRACK p in Ok n p
            end
        | _ => Err (newError p "array length not an integer")
        end in
      if isParam inFlags then Ok (newPointer t) p else Ok (Array t n) p
  end.

(** [p.parseArrays(t, inFlags)]: bracket groups until the end of the input;
    [fuel] bounds the number of groups. *)
Fixpoint parseArrays (fuel : nat) (t : option type) (inFlags : Z) (p : parser) : result type :=
  match fuel with
  | O => OutOfFuel
  | S fuel' =>
      let* (ret, p) := parseArray t inFlags p in
      let p := next p in
      if Token_eqb (tok p) EOF then Ok ret p
      else parseArrays fuel' (Some ret) inFlags p
  end.

(** The loop of [p.parseArgs(pkg)], over the way one parameter is parsed
    ([p.parse(FlagIsParam)]); [fuel] bounds the number of parameters. *)
Fixpoint parseArgsWith (parseParam : parser -> result (type * bool))
    (fuel : nat) (args : list type) (p : parser) : result (list type) :=
  match fuel with
  | O => OutOfFuel
  | S fuel' =>
      let* (r, p) := parseParam p in
      let args := if NotVoid (fst r) then (args ++ [fst r])%list else args in
      if Token_eqb (tok p) COMMA then parseArgsWith parseParam fuel' args p
      else if negb (Token_eqb (tok p) RPAREN) then Err (newError p "expect )")
      else Ok args p
  end.

(** [p.parseFunc(pkg, t, inFlags)], over the way the arguments are parsed. *)
Definition parseFuncWith (parseArgs : parser -> result (list type))
    (t : type) (p : parser) : result type :=
  let results := if NotVoid t then Some t else None in
  let* (args, p) := parseArgs p in
  Ok (Signature args results) p.

(** The loop at the label [nextTok] of [parse], over the way the arguments
    are parsed: it ends at the closing parenthesis with [isRetFn] and the
    arguments captured. *)
Fixpoint nextTokWith (parseArgs : parser -> result (list type))
    (fuel : nat) (isRetFn : bool) (args : list type) (p : parser)
    : result (bool * list type) :=
  match fuel with
  | O => OutOfFuel
  | S fuel' =>
      let p := next p in
      match tok p with
      | RPAREN => Ok (isRetFn, args) p
      | LPAREN =>
          if negb isRetFn then
            let* (args, p) := parseArgs p in
            nextTokWith parseArgs fuel' true args p
          else Err (newError p "expect )")
      | IDENT =>
          if String.eqb (lit p) "_Nullable" || String.eqb (lit p) "_Nonnull"
          then nextTokWith parseArgs fuel' isRetFn args p
          else Err (newError p "expect )")
      | _ => Err (newError p "expect )")
      end
  end.

(** ** The parser driver *)

(** The cases of the switch at the label [ident] of [parse] that name a
    qualifier: the constness and the flags after it; [None] for an identifier
    that the switch leaves to its default case. *)
Definition qualifier (l : string) (isConst : bool) (flags : Z) : option (bool * Z) :=
  if String.eqb l "unsigned" then Some (isConst, Z.lor flags flagUnsigned)
  else if String.eqb l "short" then Some (isConst, Z.lor flags flagShort)
  else if String.eqb l "long" then
    if negb (Z.land flags flagLong =? 0)
    then Some (isConst, Z.lor flags flagLongLong)
    else Some (isConst, Z.lor flags flagLong)
  else if String.eqb l "signed" then Some (isConst, Z.lor flags flagSigned)
  else if String.eqb l "const" then Some (true, flags)
  else if String.eqb l "_Complex" then Some (isConst, Z.lor flags flagComplex)
  else if String.eqb l "volatile" || String.eqb l "restrict"
          || String.eqb l "_Nullable" || String.eqb l "_Nonnull"
  then Some (isConst, flags)
  else None.

(** The switch at the label [ident] of [parse]: the current token is an
    identifier.  It gives the type, the constness and the qualifier flags
    after the identifier: a qualifier changes the constness or the flags;
    [struct] and [union] read the tag and fall through to the default case,
    which resolves the name. *)
Definition ident (t : option type) (isConst : bool) (flags : Z) (p : parser)
    : result (option type * bool * Z) :=
  match qualifier (lit p) isConst flags with
  | Some (isConst, flags) => Ok (t, isConst, flags) p
  | None =>
      let* (_, p) :=
        if String.eqb (lit p) "struct" || String.eqb (lit p) "union" then
          let p := next p in
          if negb (Token_eqb (tok p) IDENT) then Fatal FatalStructUnion else Ok tt p
        else Ok tt p in
      match t with
      | Some _ => Err (newError p "illegal syntax: multiple types?")
      | None =>
          let* (t', p) := lookupType p (lit p) flags in
          Ok (Some t', isConst, 0) p
      end
  end.

(** The body of the loop of [p.parse(inFlags)] from the label [retry] on: the
    switch over the current token, with the type [t], the constness and the
    qualifier flags so far.  Going round the loop is [next] and the switch
    again; [goto retry] is the switch again; so is [goto ident], taken when
    the current token is an identifier.  [fuel] bounds the number of
    switches. *)
Fixpoint parse_retry (fuel : nat) (inFlags : Z) (t : option type) (isConst : bool)
    (flags : Z) (p : parser) {struct fuel} : result (type * bool) :=
  match fuel with
  | O => OutOfFuel
  | S fuel' =>
      let loop t isConst flags p := parse_retry fuel' inFlags t isConst flags (next p) in
      let retry t isConst flags p := parse_retry fuel' inFlags t isConst flags p in
      let parseArgs :=
        parseArgsWith (fun p => parse_retry fuel' FlagIsParam None false 0 (next p)) fuel [] in
      match tok p with
      | IDENT =>
          let* (st, p) := ident t isConst flags p in
          let '(t, isConst, flags) := st in
          if negb (flags =? 0) then
            let p := next p in
            if Token_eqb (tok p) IDENT then retry t isConst flags p
            else
              match t with
              | Some _ => Err (newError p "illegal syntax: multiple types?")
              | None =>
                  let* (t', p) := lookupType p "int" flags in
                  retry (Some t') isConst 0 p
              end
          else loop t isConst flags p
      | MUL =>
          match t with
          | None => Err (newError p "pointer to nil")
          | Some t => loop (Some (newPointer t)) isConst flags p
          end
      | LBRACK =>
          let* (t', p) := parseArrays fuel t inFlags p in
          loop (Some t') isConst flags p
      | LPAREN =>
          match t with
          | None => Err (newError p "no function return type")
          | Some t =>
              match expect2 MUL XOR p with
              | (p, Some err) =>
                  if getRetType inFlags then Ok (t, isConst) (setEOF p) else Err err
              | (p, None) =>
                  let* (st, p) := nextTokWith parseArgs fuel false [] p in
                  let (isRetFn, args) := st : bool * list type in
                  let p := next p in
                  let* (t, p) :=
                    match tok p with
                    | LPAREN => parseFuncWith parseArgs t p
                    | LBRACK => parseArrays fuel (Some t) 0 p
                    | _ => Err (newError p ("unexpected " ++ Token_String (tok p)))
                    end in
                  if isRetFn then
                    if getRetType inFlags then Ok (t, isConst) (setEOF p)
                    else loop (Some (Signature args (Some t))) isConst flags p
                  else
                    match t with
                    | Signature _ _ => loop (Some t) isConst flags p
                    | _ => loop (Some (Pointer t)) isConst flags p
                    end
              end
          end
      | RPAREN =>
          match t with
          | None => Ok (Void, isConst) p
          | Some t => Ok (t, isConst) p
          end
      | COMMA | EOF =>
          match t with
          | None => Err ErrUnexpectedEOF
          | Some t => Ok (t, isConst) p
          end
      | _ => Fatal FatalUnknownToken
      end
  end.

(** [p.parse(inFlags)]. *)
Definition parse (fuel : nat) (inFlags : Z) (p : parser) : result (type * bool) :=
  parse_retry fuel inFlags None false 0 (next p).

(** [p.parseArgs(pkg)]. *)
Definition parseArgs (fuel : nat) (p : parser) : result (list type) :=
  parseArgsWith (parse fuel FlagIsParam) (S fuel) [] p.

(** [p.parseFunc(pkg, t, inFlags)]. *)
Definition parseFunc (fuel : nat) (t : type) (p : parser) : result type :=
  parseFuncWith (parseArgs fuel) t p.

(** The parser [ParseType] starts from: the scanner over the text, and the
    zero values of the other fields. *)
Definition newParser (qualType : string) : parser :=
  mkParser (Init qualType) 0 ILLEGAL "".

(** The tail of [ParseType], from a parser ready to start: [parse], and then
    the check that the input is used up.  The number of switches [parse] may
    take is the number of tokens left and one. *)
Definition ParseFrom (p : parser) (flags : Z) : result (type * bool) :=
  let* (r, p) := parse (S (List.length (pending (s p)))) flags p in
  if negb (Token_eqb (tok p) EOF)
  then Err (newError p ("unexpect token " ++ Token_String (tok p)))
  else Ok r p.

(** [ParseType(fset, pkg, scope, qualType, flags)]. *)
Definition ParseType (qualType : string) (flags : Z) : result (type * bool) :=
  ParseFrom (newParser qualType) flags.

End Parser.

(** ** Environments to evaluate the parser in *)

(** A 64-bit platform. *)
Definition lp64 : CTypes :=
  mkCTypes (Basic Int64) (Basic Uint64) (Basic Float64) (Named "Int128") (Named "Uint128").

(** A registry with the names of the C base types that the parser leaves to
    it. *)
Definition cscope : Scope :=
  [[("void", Void); ("char", Basic Int8); ("float", Basic Float32);
    ("double", Basic Float64)]].

(** The value a call returns, when it returns one. *)
Definition val {A : Type} (r : result A) : option A :=
  match r with
  | Ok a _ => Some a
  | _ => None
  end.

(** A parser whose current token is [x], with the tokens [rest] to come. *)
Definition parserAt (src : string) (x : scanned) (rest : list scanned) : parser :=
  mkParser (mkScanner src rest) (sc_pos x) (sc_tok x) (sc_lit x).

(** ** Notions the properties are stated with *)

(** [params parseParam p l p']: from [p], the parameters parsed one after
    the other have the types [l], each but the last ends at a comma, and the
    last ends at the parser [p'], not at a comma. *)
Inductive params (parseParam : parser -> result (type * bool))
    : parser -> list type -> parser -> Prop :=
  | params_last (p p' : parser) (a : type) (c : bool) :
      parseParam p = Ok (a, c) p' ->
      tok p' <> COMMA ->
      params parseParam p [a] p'
  | params_more (p p1 p' : parser) (a : type) (c : bool) (l : list type) :
      parseParam p = Ok (a, c) p1 ->
      tok p1 = COMMA ->
      params parseParam p1 l p' ->
      params parseParam p (a :: l) p'.

(** The tokens still to be looked at: those pending, and the current one
    unless it is EOF. *)
Definition measure (p : parser) : nat :=
  List.length (pending (s p)) + (if Token_eqb (tok p) EOF then 0 else 1).

(** The parsers a call can leave or fail at: those got from [p] by reading
    tokens and by setting the current token to EOF. *)
Inductive reach (p : parser) : parser -> Prop :=
  | reach_refl : reach p p
  | reach_next (q : parser) : reach p q -> reach p (next q)
  | reach_setEOF (q : parser) : reach p q -> reach p (setEOF q).

(** The errors a call started from [p0] returns: the two bare error values,
    or an error made by [newError] at a parser reached from [p0]. *)
Definition errorOf (p0 : parser) (e : error) : Prop :=
  e = ErrNotFound \/ e = ErrUnexpectedEOF \/
  exists q msg, reach p0 q /\ e = newError q msg.

(** A result of a call at [p], inside the parse started from [p0]: not out
    of fuel, a parser reached from [p], an error of the parse. *)
Definition good {A : Type} (p0 p : parser) (r : result A) : Prop :=
  match r with
  | Ok _ p' => reach p p'
  | Err e => errorOf p0 e
  | Fatal _ => True
  | OutOfFuel => False
  end.

(** What the loops ask of the call they repeat: at a parser within the
    bound, with a token to read, it gives a good result after that token. *)
Definition goodCall {A : Type} (p0 : parser) (bound : nat) (f : parser -> result A) : Prop :=
  forall q, reach p0 q -> tok q <> EOF -> (measure q <= bound)%nat ->
  good p0 (next q) (f q).







(** The identifiers that the switch at [ident] takes as qualifiers. *)
Definition isQualifier (l : string) : bool :=
  match qualifier l false 0 with
  | Some _ => true
  | None => false
  end.

(** These are the identifiers of the cases of the switch that come before
    [struct] and [union]. *)
Definition keywords : list string :=
  ["unsigned"; "short"; "long"; "signed"; "const"; "_Complex";
   "volatile"; "restrict"; "_Nullable"; "_Nonnull"].

(** A token that is a qualifier. *)
Definition qualifierToken (x : scanned) : Prop :=
  sc_tok x = IDENT /\ isQualifier (sc_lit x) = true.

(** The constness and the flags after the qualifier [l]. *)
Definition qualify (st : bool * Z) (l : string) : bool * Z :=
  match qualifier l (fst st) (snd st) with
  | Some st' => st'
  | None => st
  end.

(** The code of [parse] behind the switch at [ident], for a qualifier and
    with no type yet, started at the token [q] after the qualifier: with
    flags pending, an identifier goes back to [ident], and anything else
    makes the flags an [int] and goes back to [retry]; without flags, the
    loop goes on. *)
Definition afterQualifier (ct : CTypes) (sc : Scope) (fuel : nat) (inFlags : Z)
    (st : bool * Z) (q : parser) : result (type * bool) :=
  let (isConst, flags) := st in
  if negb (flags =? 0) then
    if Token_eqb (tok q) IDENT then parse_retry ct sc fuel inFlags None isConst flags q
    else
      let* (t', q) := lookupType ct sc q "int" flags in
      parse_retry ct sc fuel inFlags (Some t') isConst 0 q
  else parse_retry ct sc fuel inFlags None isConst flags q.

(** The parser [ParseFrom] starts from, over scanned tokens. *)
Definition parserOver (src : string) (toks : list scanned) : parser :=
  mkParser (mkScanner src toks) 0 ILLEGAL "".

(** What the parser looks at in a token, a parser and a result: the kinds
    and texts of the tokens, not the source text and the positions, which
    only go into the errors. *)
Definition eraseToken (x : scanned) : scanned :=
  mkScanned 0 (sc_tok x) (sc_lit x).

Definition erase (p : parser) : parser :=
  mkParser (mkScanner "" (map eraseToken (pending (s p)))) 0 (tok p) (lit p).

Definition eraseError (e : error) : error :=
  match e with
  | ParseTypeError _ _ msg => ParseTypeError "" 0 msg
  | _ => e
  end.

Definition eraseResult {A : Type} (r : result A) : result A :=
  match r with
  | Ok a p => Ok a (erase p)
  | Err e => Err (eraseError e)
  | Fatal f => Fatal f
  | OutOfFuel => OutOfFuel
  end.

(** The sets over the six qualifier flags, as numbers, and a check over
    every constness and every such set. *)
Definition flagSet (flags : Z) : bool := (0 <=? flags) && (flags <? 64).

Definition flagSets : list Z := map Z.of_nat (seq 0 64).

Definition state_eqb (a b : bool * Z) : bool :=
  Bool.eqb (fst a) (fst b) && (snd a =? snd b).

Definition everyState (check : bool * Z -> bool) : bool :=
  forallb (fun fl => check (true, fl) && check (false, fl)) flagSets.

(** ** Notions for further properties *)

(** A scanner hands out EOF at the end of the source only: no token still
    pending is EOF. *)
Definition noEOF (p : parser) : Prop :=
  Forall (fun x => sc_tok x <> EOF) (pending (s p)).

(** The current token is the one last scanned. *)
Definition scannedAt (p : parser) : Prop :=
  exists q, noEOF q /\ p = next q.

(** A call keeps a property of the parser when the parser it leaves with a
    value has the property the parser it started from had. *)
Definition keeps {A : Type} (Inv : parser -> Prop) (f : parser -> result A) : Prop :=
  forall p a p', Inv p -> f p = Ok a p' -> Inv p'.

(** A result with the constness set. *)
Definition withConst (r : result (type * bool)) : result (type * bool) :=
  match r with
  | Ok (t, _) p => Ok (t, true) p
  | _ => r
  end.

(** The parser at the end of the source, with every token read. *)
Definition endOf (src : string) : parser :=
  mkParser (mkScanner src []) (Z.of_nat (String.length src)) EOF "".

(** The tokens of a bracket group behind its opening token, and the length
    they give: the closing bracket alone, or a number and the closing
    bracket. *)
Definition groupLength (body : list scanned) : option Z :=
  match body with
  | [cl] => if Token_eqb (sc_tok cl) RBRACK then Some (-1) else None
  | [len; cl] =>
      if Token_eqb (sc_tok len) INT && Token_eqb (sc_tok cl) RBRACK then
        match ParseInt (sc_lit len) with
        | inl n => Some n
        | inr _ => None
        end
      else None
  | _ => None
  end.

(** The tokens of further groups, each with the token that stands where its
    opening bracket should. *)
Fixpoint groupTokens (gs : list (scanned * list scanned)) : list scanned :=
  match gs with
  | [] => []
  | (o, body) :: gs' => (o :: body ++ groupTokens gs')%list
  end.

(** What a group of length [n] makes of the type [t]. *)
Definition arrayOf (inFlags : Z) (t : type) (n : Z) : type :=
  if isParam inFlags then newPointer t else Array t n.

(** An input with no opening bracket, from the current token on. *)
Definition noBracket (p : parser) : Prop :=
  tok p <> LBRACK /\ Forall (fun x => sc_tok x <> LBRACK) (pending (s p)).

(** An input with no opening parenthesis, from the current token on. *)
Definition noParen (p : parser) : Prop :=
  tok p <> LPAREN /\ Forall (fun x => sc_tok x <> LPAREN) (pending (s p)).

(** * Properties *)

Lemma Token_eqb_eq (a b : Token) : Token_eqb a b = true <-> a = b.
Proof. destruct a, b; simpl; split; intros H; congruence. Qed.

(** ** The registry is consulted through its lookup only *)

Section Agree.

Variable ct : CTypes.
Variables sc sc' : Scope.
Hypothesis agree : forall name, LookupParent sc name = LookupParent sc' name.

Lemma lookupType_agree (p : parser) (l : string) (flags : Z) :
  lookupType ct sc p l flags = lookupType ct sc' p l flags.
Proof. unfold lookupType. rewrite agree. reflexivity. Qed.

Lemma ident_agree (t : option type) (c : bool) (flags : Z) (p : parser) :
  ident ct sc t c flags p = ident ct sc' t c flags p.
Proof.
  unfold ident. destruct (qualifier (lit p) c flags); [reflexivity|].
  destruct (String.eqb (lit p) "struct" || String.eqb (lit p) "union").
  - destruct (negb (Token_eqb (tok (next p)) IDENT)); simpl; [reflexivity|].
    destruct t; [reflexivity|]. rewrite lookupType_agree. reflexivity.
  - simpl. destruct t; [reflexivity|]. rewrite lookupType_agree. reflexivity.
Qed.

Lemma parseArgsWith_agree (f g : parser -> result (type * bool)) :
  (forall q, f q = g q) ->
  forall (n : nat) (args : list type) (p : parser),
  parseArgsWith f n args p = parseArgsWith g n args p.
Proof.
  intros Hfg. induction n as [|n IH]; intros args p; [reflexivity|].
  simpl. rewrite Hfg. destruct (g p) as [r p1| | |]; simpl; try reflexivity.
  destruct (Token_eqb (tok p1) COMMA); [apply IH | reflexivity].
Qed.

Lemma parseFuncWith_agree (f g : parser -> result (list type)) (t : type) (p : parser) :
  (forall q, f q = g q) -> parseFuncWith f t p = parseFuncWith g t p.
Proof. intros Hfg. unfold parseFuncWith. rewrite Hfg. reflexivity. Qed.

Lemma nextTokWith_agree (f g : parser -> result (list type)) :
  (forall q, f q = g q) ->
  forall (n : nat) (isRetFn : bool) (args : list type) (p : parser),
  nextTokWith f n isRetFn args p = nextTokWith g n isRetFn args p.
Proof.
  intros Hfg. induction n as [|n IH]; intros isRetFn args p; [reflexivity|].
  simpl. destruct (tok (next p)); try reflexivity.
  - destruct (String.eqb (lit (next p)) "_Nullable" || String.eqb (lit (next p)) "_Nonnull");
      [apply IH | reflexivity].
  - destruct isRetFn; simpl; [reflexivity|].
    rewrite Hfg. destruct (g (next p)); simpl; try reflexivity. apply IH.
Qed.

Lemma parse_retry_agree :
  forall (fuel : nat) (inFlags : Z) (t : option type) (c : bool) (flags : Z) (p : parser),
  parse_retry ct sc fuel inFlags t c flags p = parse_retry ct sc' fuel inFlags t c flags p.
Proof.
  induction fuel as [|f IH]; intros inFlags t c flags p; [reflexivity|].
  assert (Hargs : forall q,
            parseArgsWith (fun q => parse_retry ct sc f FlagIsParam None false 0 (next q)) (S f) [] q =
            parseArgsWith (fun q => parse_retry ct sc' f FlagIsParam None false 0 (next q)) (S f) [] q).
  { intros q. apply parseArgsWith_agree. intros q'. apply IH. }
  cbn [parse_retry]. destruct (tok p); try reflexivity.
  - (* an identifier *)
    rewrite ident_agree.
    destruct (ident ct sc' t c flags p) as [[[t1 c1] fl1] p1| | |]; cbn [bind]; try reflexivity.
    destruct (negb (fl1 =? 0)); [| apply IH].
    destruct (Token_eqb (tok (next p1)) IDENT); [apply IH|].
    destruct t1; [reflexivity|]. rewrite lookupType_agree.
    destruct (lookupType ct sc' (next p1) "int" fl1); cbn [bind]; try reflexivity. apply IH.
  - (* a star *)
    destruct t; [apply IH | reflexivity].
  - (* an opening parenthesis *)
    destruct t as [t|]; [| reflexivity].
    destruct (expect2 MUL XOR p) as [p1 [e|]]; [reflexivity|].
    rewrite (nextTokWith_agree _ _ Hargs).
    destruct (nextTokWith _ (S f) false [] p1) as [[isRetFn args] p2| | |];
      cbn [bind]; try reflexivity.
    destruct (tok (next p2)); try reflexivity.
    + rewrite (parseFuncWith_agree _ _ t (next p2) Hargs).
      destruct (parseFuncWith _ t (next p2)) as [t0 p3| | |]; cbn [bind]; try reflexivity.
      destruct isRetFn; [destruct (getRetType inFlags); [reflexivity | apply IH]|].
      destruct t0; apply IH.
    + destruct (parseArrays (S f) (Some t) 0 (next p2)) as [t0 p3| | |];
        cbn [bind]; try reflexivity.
      destruct isRetFn; [destruct (getRetType inFlags); [reflexivity | apply IH]|].
      destruct t0; apply IH.
  - (* an opening bracket *)
    destruct (parseArrays (S f) t inFlags p); cbn [bind]; try reflexivity. apply IH.
Qed.

Lemma ParseType_agree (qualType : string) (flags : Z) :
  ParseType ct sc qualType flags = ParseType ct sc' qualType flags.
Proof. unfold ParseType, ParseFrom, parse. rewrite parse_retry_agree. reflexivity. Qed.

End Agree.

(** A name that the registry resolves can be declared once more in front of
    it. *)
Lemma LookupParent_shadow (sc : Scope) (name : string) (t : type) :
  LookupParent sc name = Some t ->
  forall n, LookupParent sc n = LookupParent ([(name, t)] :: sc) n.
Proof.
  intros H n. simpl. destruct (String.eqb_spec name n) as [->|_]; [exact H | reflexivity].
Qed.

(** The registry, with what is known of it in front, so that the parser can
    be run. *)
Lemma ParseType_known1 (ct : CTypes) (sc : Scope) (n1 : string) (t1 : type)
    (qualType : string) (flags : Z) :
  LookupParent sc n1 = Some t1 ->
  ParseType ct sc qualType flags = ParseType ct ([(n1, t1)] :: sc) qualType flags.
Proof. intros H1. apply ParseType_agree. apply LookupParent_shadow, H1. Qed.

Lemma ParseType_known2 (ct : CTypes) (sc : Scope) (n1 n2 : string) (t1 t2 : type)
    (qualType : string) (flags : Z) :
  LookupParent sc n1 = Some t1 ->
  LookupParent sc n2 = Some t2 ->
  ParseType ct sc qualType flags =
    ParseType ct ([(n2, t2)] :: [(n1, t1)] :: sc) qualType flags.
Proof.
  intros H1 H2. apply ParseType_agree. intros n.
  rewrite (LookupParent_shadow sc n1 t1 H1 n).
  apply LookupParent_shadow. rewrite <- (LookupParent_shadow sc n1 t1 H1 n2). exact H2.
Qed.

(** ** The pointer rule *)

(** C7: the pointer rule on Void gives the unsafe pointer and not
    [Pointer Void]; on any other type [t] it gives [Pointer t].  This is what
    [newPointer] computes, and what the driver does at a star with a type
    resolved: it goes round the loop with that type. *)
Theorem pointer_rule (ct : CTypes) (sc : Scope) (fuel : nat) (inFlags flags : Z)
    (isConst : bool) (p : parser) (t : type) :
  tok p = MUL ->
  newPointer Void = Basic UnsafePointer /\
  newPointer Void <> Pointer Void /\
  (t <> Void -> newPointer t = Pointer t) /\
  parse_retry ct sc (S fuel) inFlags (Some t) isConst flags p =
    parse_retry ct sc fuel inFlags (Some (newPointer t)) isConst flags (next p).
Proof.
  intros Htok. split; [reflexivity|]. split; [discriminate|]. split.
  - intros Hnv. destruct t; try reflexivity. contradiction.
  - cbn [parse_retry]. rewrite Htok. reflexivity.
Qed.

Lemma pointer_rule_witness :
  newPointer (Basic Int8) = Pointer (Basic Int8) /\
  val (parse_retry lp64 cscope 2 0 (Some (Basic Int8)) false 0
         (parserAt "char *" (mkScanned 5 MUL "*") [])) =
    Some (Pointer (Basic Int8), false).
Proof.
  destruct (pointer_rule lp64 cscope 1 0 0 false
              (parserAt "char *" (mkScanned 5 MUL "*") []) (Basic Int8) eq_refl)
    as (_ & _ & Hptr & Hstep).
  split.
  - apply Hptr. discriminate.
  - rewrite Hstep. reflexivity.
Defined.

(** ** The primitive resolver *)

Lemma ldiff_ldiff (a b : Z) : Z.ldiff (Z.ldiff a b) b = Z.ldiff a b.
Proof.
  apply Z.bits_inj'. intros n Hn.
  rewrite !Z.ldiff_spec.
  destruct (Z.testbit a n), (Z.testbit b n); reflexivity.
Qed.

Lemma land_ldiff_Complex (flags : Z) :
  Z.land flags flagComplex = 0 -> Z.land (Z.ldiff flags flagSigned) flagComplex = 0.
Proof.
  intros H. apply Z.bits_inj'. intros n Hn.
  rewrite Z.land_spec, Z.ldiff_spec, Z.bits_0.
  assert (Hb : Z.testbit (Z.land flags flagComplex) n = false)
    by (rewrite H; apply Z.bits_0).
  rewrite Z.land_spec in Hb.
  destruct (Z.testbit flags n); simpl in *; [rewrite Hb; apply andb_false_r | reflexivity].
Qed.

(** C10: with qualifier flags pending and [complex] not among them, the
    keyword [int] resolves as it does for the flags without [signed]; so
    [signed unsigned int] is [uint32] and is not rejected. *)
Theorem lookupType_int_signed_ignored (ct : CTypes) (sc : Scope) (p : parser) (flags : Z) :
  flags <> 0 ->
  Z.land flags flagComplex = 0 ->
  lookupType ct sc p "int" flags = lookupType ct sc p "int" (Z.ldiff flags flagSigned) /\
  lookupType ct sc p "int" (Z.lor flagSigned flagUnsigned) = Ok (Basic Uint32) p /\
  val (ParseType ct sc "signed unsigned int" 0) = Some (Basic Uint32, false).
Proof.
  intros Hnz Hc. split; [| split; [reflexivity | vm_compute; reflexivity]].
  unfold lookupType.
  destruct (Z.eqb_spec flags 0) as [|_]; [contradiction|].
  rewrite Hc, (land_ldiff_Complex flags Hc), ldiff_ldiff. simpl.
  destruct (Z.eqb_spec (Z.ldiff flags flagSigned) 0) as [H0|_]; simpl.
  - rewrite H0. reflexivity.
  - reflexivity.
Qed.

Lemma lookupType_int_signed_ignored_witness :
  lookupType lp64 cscope (newParser "signed long") "int" (Z.lor flagSigned flagLong) =
    Ok (Basic Int64) (newParser "signed long").
Proof.
  assert (Hnz : Z.lor flagSigned flagLong <> 0) by discriminate.
  destruct (lookupType_int_signed_ignored lp64 cscope (newParser "signed long")
              (Z.lor flagSigned flagLong) Hnz eq_refl) as (H & _ & _).
  rewrite H. reflexivity.
Defined.

(** C3: [int] with each of the eight listed flag sets resolves to the type
    of the table.  With short+long+longlong+unsigned no type is produced,
    but not through a returned [ErrInvalidType]: the call reaches
    [log.Fatalln] and the process ends. *)
Theorem lookupType_int_table (ct : CTypes) (sc : Scope) (p : parser) :
  lookupType ct sc p "int" 0 = Ok (Basic Int32) p /\
  lookupType ct sc p "int" flagShort = Ok (Basic Int16) p /\
  lookupType ct sc p "int" flagLong = Ok (Long ct) p /\
  lookupType ct sc p "int" (Z.lor flagLong flagLongLong) = Ok (Basic Int64) p /\
  lookupType ct sc p "int" flagUnsigned = Ok (Basic Uint32) p /\
  lookupType ct sc p "int" (Z.lor flagShort flagUnsigned) = Ok (Basic Uint16) p /\
  lookupType ct sc p "int" (Z.lor flagLong flagUnsigned) = Ok (Ulong ct) p /\
  lookupType ct sc p "int" (Z.lor (Z.lor flagLong flagLongLong) flagUnsigned) =
    Ok (Basic Uint64) p /\
  lookupType ct sc p "int"
    (Z.lor (Z.lor (Z.lor flagShort flagLong) flagLongLong) flagUnsigned) =
    Fatal FatalInvalidType /\
  ParseType ct sc "short long long unsigned int" 0 = Fatal FatalInvalidType.
Proof. repeat split. Qed.

(** ** The array rule *)

Lemma newPointer_cases (t : type) :
  newPointer t = Pointer t \/ newPointer t = Basic UnsafePointer.
Proof. unfold newPointer. destruct (NotVoid t); [left | right]; reflexivity. Qed.

Lemma parseArray_isParam (t : type) (inFlags : Z) (p p' : parser) (r : type) :
  isParam inFlags = true ->
  parseArray (Some t) inFlags p = Ok r p' -> r = newPointer t.
Proof.
  intros Hp. unfold parseArray. rewrite Hp.
  destruct (tok (next p)); simpl; try discriminate.
  - destruct (ParseInt (lit (next p))); simpl; try discriminate.
    unfold expect. destruct (Token_eqb (tok (next (next p))) RBRACK); simpl; congruence.
  - congruence.
Qed.

(** The claim of C4 fails for a Void element: in a parameter context
    [void [10]] is the unsafe pointer, which is not [Pointer Void].  It also
    fails, when the flag meant is that of the call of [ParseType], for the
    bracket group behind a parenthesized star: that group is parsed with the
    flags cleared and stays an Array. *)
Lemma parseArray_param_void_counterexample :
  val (ParseType lp64 cscope "void [10]" FlagIsParam) = Some (Basic UnsafePointer, false) /\
  Basic UnsafePointer <> Pointer Void /\
  val (ParseType lp64 cscope "int (*)[4]" FlagIsParam) =
    Some (Pointer (Array (Basic Int32) 4), false).
Proof. split; [vm_compute; reflexivity | split; [discriminate | vm_compute; reflexivity]]. Qed.

(** C4, amended: a bracket group that [parseArray] parses with [IsParam]
    set in the flags it is given yields what the pointer rule gives for the
    element type, [Pointer elem] for an element that is not Void and the
    unsafe pointer for Void, and never an Array; the call returns it for
    [[]] and for [[N]].  [int [10]] is [Pointer int32] with the flag and
    [Array int32 10] without.  (The group behind a parenthesized star is
    given no flags: it is an Array whatever the flags of the call.) *)
Theorem parseArray_param_decay (t : type) (inFlags : Z) (p : parser) :
  isParam inFlags = true ->
  (forall r p', parseArray (Some t) inFlags p = Ok r p' ->
     r = newPointer t /\ (forall e n, r <> Array e n) /\ (t <> Void -> r = Pointer t)) /\
  (tok (next p) = RBRACK ->
     parseArray (Some t) inFlags p = Ok (newPointer t) (next p)) /\
  (forall n, tok (next p) = INT -> ParseInt (lit (next p)) = inl n ->
     tok (next (next p)) = RBRACK ->
     parseArray (Some t) inFlags p = Ok (newPointer t) (next (next p))) /\
  (forall ct sc,
     val (ParseType ct sc "int [10]" FlagIsParam) = Some (Pointer (Basic Int32), false) /\
     val (ParseType ct sc "int [10]" 0) = Some (Array (Basic Int32) 10, false) /\
     val (ParseType ct sc "int (*)[4]" FlagIsParam) =
       Some (Pointer (Array (Basic Int32) 4), false)).
Proof.
  intros Hp. split; [| split; [| split]].
  - intros r p' H. apply parseArray_isParam in H; [| assumption]. subst r.
    split; [reflexivity|]. split.
    + intros e n Hr. destruct (newPointer_cases t) as [E|E]; rewrite E in Hr; discriminate.
    + intros Hnv. destruct t; try reflexivity. contradiction.
  - intros Htok. unfold parseArray. rewrite Htok, Hp. reflexivity.
  - intros n Htok Hn Htok2. unfold parseArray, expect.
    rewrite Htok, Hn, Htok2, Hp. reflexivity.
  - intros ct sc. repeat split; vm_compute; reflexivity.
Qed.

Lemma parseArray_param_decay_witness :
  parseArray (Some (Basic Int8)) FlagIsParam
    (parserAt "char []" (mkScanned 5 LBRACK "[") [mkScanned 6 RBRACK "]"]) =
  Ok (Pointer (Basic Int8)) (parserAt "char []" (mkScanned 6 RBRACK "]") []).
Proof.
  destruct (parseArray_param_decay (Basic Int8) FlagIsParam
              (parserAt "char []" (mkScanned 5 LBRACK "[") [mkScanned 6 RBRACK "]"])
              eq_refl) as (_ & Hempty & _).
  apply Hempty. reflexivity.
Defined.

(** ** The opening parenthesis and the return-type-only mode *)

(** The claim of C5 fails when no type is resolved yet: [(int)] parsed with
    [GetRetType] reaches a parenthesis that no star and no caret follows,
    and the call returns an error. *)
Lemma getRetType_nil_counterexample :
  getRetType FlagGetRetType = true /\
  ParseType lp64 cscope "(int)" FlagGetRetType =
    Err (ParseTypeError "(int)" 0 "no function return type").
Proof. split; vm_compute; reflexivity. Qed.

(** C5, amended: when the switch of the driver loop is at a parenthesis
    that neither a star nor a caret follows, with a type [t] already
    resolved, the call returns [t] and the constness
    so far, with the current token set to EOF, when [GetRetType] is set, and
    the error of [expect2] when it is clear; with no type resolved the call
    returns the error "no function return type" whatever the flag. *)
Theorem getRetType_stops (ct : CTypes) (sc : Scope) (fuel : nat) (inFlags flags : Z)
    (isConst : bool) (t : type) (p : parser) :
  tok p = LPAREN ->
  tok (next p) <> MUL ->
  tok (next p) <> XOR ->
  (getRetType inFlags = true ->
     parse_retry ct sc (S fuel) inFlags (Some t) isConst flags p =
       Ok (t, isConst) (setEOF (next p))) /\
  (getRetType inFlags = false ->
     parse_retry ct sc (S fuel) inFlags (Some t) isConst flags p =
       Err (newError (next p) ("expect *, got " ++ Token_String (tok (next p))))) /\
  parse_retry ct sc (S fuel) inFlags None isConst flags p =
    Err (newError p "no function return type").
Proof.
  intros Htok Hmul Hxor.
  assert (Hexp : expect2 MUL XOR p =
            (next p, Some (newError (next p) ("expect *, got " ++ Token_String (tok (next p)))))).
  { unfold expect2. destruct (tok (next p)); try reflexivity; contradiction. }
  split; [| split].
  - intros Hg. cbn [parse_retry]. rewrite Htok, Hexp, Hg. reflexivity.
  - intros Hg. cbn [parse_retry]. rewrite Htok, Hexp, Hg. reflexivity.
  - cbn [parse_retry]. rewrite Htok. reflexivity.
Qed.

Lemma getRetType_stops_witness :
  parse_retry lp64 cscope 1 FlagGetRetType (Some (Basic Int32)) false 0
    (parserAt "int (int)" (mkScanned 4 LPAREN "(") [mkScanned 5 IDENT "int"]) =
  Ok (Basic Int32, false)
    (setEOF (parserAt "int (int)" (mkScanned 5 IDENT "int") [])).
Proof.
  assert (Hmul : IDENT <> MUL) by discriminate.
  assert (Hxor : IDENT <> XOR) by discriminate.
  destruct (getRetType_stops lp64 cscope 0 FlagGetRetType 0 false (Basic Int32)
              (parserAt "int (int)" (mkScanned 4 LPAREN "(") [mkScanned 5 IDENT "int"])
              eq_refl Hmul Hxor)
    as (Hset & _ & _).
  apply Hset. reflexivity.
Defined.

(** ** Void *)

(** The claim of C9 fails where the registry does not declare [void]: the
    parser has no keyword [void] of its own. *)
Lemma parse_void_counterexample :
  ParseType lp64 [] "void" 0 = Err ErrNotFound.
Proof. vm_compute. reflexivity. Qed.

(** C9, amended: with a registry that resolves [void] to the Void marker,
    [void] parses to Void and not const, whatever the parse flags; and a
    call that is at a closing parenthesis with no type resolved returns
    Void. *)
Theorem parse_void (ct : CTypes) (sc : Scope) (fuel : nat) (inFlags flags : Z)
    (isConst : bool) (p : parser) :
  LookupParent sc "void" = Some Void ->
  tok p = RPAREN ->
  val (ParseType ct sc "void" inFlags) = Some (Void, false) /\
  parse_retry ct sc (S fuel) inFlags None isConst flags p = Ok (Void, isConst) p.
Proof.
  intros Hvoid Htok. split.
  - rewrite (ParseType_known1 ct sc "void" Void _ _ Hvoid). vm_compute. reflexivity.
  - cbn [parse_retry]. rewrite Htok. reflexivity.
Qed.

Lemma parse_void_witness :
  val (ParseType lp64 cscope "void" 0) = Some (Void, false) /\
  parse_retry lp64 cscope 1 FlagIsParam None false 0
    (parserAt "int (*)()" (mkScanned 8 RPAREN ")") []) =
  Ok (Void, false) (parserAt "int (*)()" (mkScanned 8 RPAREN ")") []).
Proof.
  exact (parse_void lp64 cscope 0 FlagIsParam 0 false
           (parserAt "int (*)()" (mkScanned 8 RPAREN ")") []) eq_refl eq_refl).
Defined.

(** ** Pointers to functions *)

(** The claim of C1 fails: with [char] and [void] in the registry the
    parenthesized star before an argument list gives the function type
    itself, with no [Pointer] around it. *)
Lemma pointer_to_function_counterexample :
  val (ParseType lp64 cscope "int (*)(void *, int, char **, char **)" 0) =
    Some (Signature [Basic UnsafePointer; Basic Int32;
                     Pointer (Pointer (Basic Int8)); Pointer (Pointer (Basic Int8))]
            (Some (Basic Int32)), false) /\
  Signature [Basic UnsafePointer; Basic Int32;
             Pointer (Pointer (Basic Int8)); Pointer (Pointer (Basic Int8))]
    (Some (Basic Int32)) <>
  Pointer (Signature [Basic UnsafePointer; Basic Int32;
                      Pointer (Pointer (Basic Int8)); Pointer (Pointer (Basic Int8))]
             (Some (Basic Int32))).
Proof. split; [vm_compute; reflexivity | discriminate]. Qed.

(** C1, amended: with both parse flags clear and a registry that resolves
    [char] to a type [c] other than Void and [void] to the Void marker, the
    input parses to the function type with the parameters unsafe pointer,
    int32, pointer to pointer to [c] twice, and the result int32: the
    function type itself, which the code does not wrap in a [Pointer].  (A
    [Pointer] is put around what follows the parenthesized star when that is
    not a function type, as for a bracket group.) *)
Theorem pointer_to_function (ct : CTypes) (sc : Scope) (c : type) :
  LookupParent sc "char" = Some c ->
  c <> Void ->
  LookupParent sc "void" = Some Void ->
  val (ParseType ct sc "int (*)(void *, int, char **, char **)" 0) =
    Some (Signature [Basic UnsafePointer; Basic Int32; Pointer (Pointer c); Pointer (Pointer c)]
            (Some (Basic Int32)), false) /\
  val (ParseType ct sc "int (*)[4]" 0) = Some (Pointer (Array (Basic Int32) 4), false).
Proof.
  intros Hchar Hc Hvoid. split; [| vm_compute; reflexivity].
  rewrite (ParseType_known2 ct sc "void" "char" Void c _ _ Hvoid Hchar).
  destruct c; try contradiction; vm_compute; reflexivity.
Qed.

Lemma pointer_to_function_witness :
  val (ParseType lp64 cscope "int (*)(void *, int, char **, char **)" 0) =
    Some (Signature [Basic UnsafePointer; Basic Int32;
                     Pointer (Pointer (Basic Int8)); Pointer (Pointer (Basic Int8))]
            (Some (Basic Int32)), false).
Proof.
  assert (Hc : Basic Int8 <> Void) by discriminate.
  exact (proj1 (pointer_to_function lp64 cscope (Basic Int8) eq_refl Hc eq_refl)).
Defined.

(** ** Argument lists *)

Lemma parseArgsWith_params (parseParam : parser -> result (type * bool))
    (p p' : parser) (l : list type) :
  params parseParam p l p' ->
  forall (fuel : nat) (args : list type),
  (List.length l <= fuel)%nat ->
  parseArgsWith parseParam fuel args p =
    if Token_eqb (tok p') RPAREN then Ok (args ++ filter NotVoid l)%list p'
    else Err (newError p' "expect )").
Proof.
  induction 1 as [p p' a c Hparse Htok | p p1 p' a c l Hparse Htok Hrest IH];
    intros fuel args Hfuel; simpl in Hfuel.
  - destruct fuel as [|fuel]; [lia|]. simpl. rewrite Hparse. simpl.
    destruct (Token_eqb (tok p') COMMA) eqn:E.
    + apply Token_eqb_eq in E. contradiction.
    + destruct (Token_eqb (tok p') RPAREN); simpl; [| reflexivity].
      destruct (NotVoid a); [reflexivity | rewrite app_nil_r; reflexivity].
  - destruct fuel as [|fuel]; [lia|]. simpl. rewrite Hparse. simpl.
    rewrite Htok. simpl. rewrite IH by lia.
    destruct (NotVoid a); [rewrite <- app_assoc |]; reflexivity.
Qed.

(** The claim of C6 fails for a Void parameter that is not the only one: it
    is dropped as well, where the claim has it appended. *)
Lemma parseArgs_void_counterexample :
  val (ParseType lp64 cscope "int (*)(int, void)" 0) =
    Some (Signature [Basic Int32] (Some (Basic Int32)), false) /\
  [Basic Int32] <> [Basic Int32; Void].
Proof. split; [vm_compute; reflexivity | discriminate]. Qed.

(** C6, amended: the argument list keeps, in order, the parameter types that
    are not Void and drops every Void one, the only parameter or not: when
    the parameters parse to the types [l], the list parse returns the
    non-Void types of [l] if it ends at a closing parenthesis, and the error
    "expect )" otherwise.  With [void] resolving to Void, the list [(void)]
    is the empty parameter list. *)
Theorem parseArgs_drops_void (ct : CTypes) (sc : Scope) (fuel : nat)
    (p p' : parser) (l : list type) :
  LookupParent sc "void" = Some Void ->
  params (parse ct sc fuel FlagIsParam) p l p' ->
  (List.length l <= S fuel)%nat ->
  parseArgs ct sc fuel p =
    (if Token_eqb (tok p') RPAREN then Ok (filter NotVoid l) p'
     else Err (newError p' "expect )")) /\
  val (ParseType ct sc "int (*)(void)" 0) =
    Some (Signature [] (Some (Basic Int32)), false) /\
  val (ParseType ct sc "int (*)(int, void, int *)" 0) =
    Some (Signature [Basic Int32; Pointer (Basic Int32)] (Some (Basic Int32)), false).
Proof.
  intros Hvoid Hparams Hfuel. split; [| split].
  - unfold parseArgs. apply (parseArgsWith_params _ _ _ _ Hparams). exact Hfuel.
  - rewrite (ParseType_known1 ct sc "void" Void _ _ Hvoid). vm_compute. reflexivity.
  - rewrite (ParseType_known1 ct sc "void" Void _ _ Hvoid). vm_compute. reflexivity.
Qed.

Lemma parseArgs_drops_void_witness :
  parseArgs lp64 cscope 3
    (parserAt "int (*)(void)" (mkScanned 7 LPAREN "(")
       [mkScanned 8 IDENT "void"; mkScanned 12 RPAREN ")"]) =
  Ok [] (parserAt "int (*)(void)" (mkScanned 12 RPAREN ")") []).
Proof.
  assert (Hparams : params (parse lp64 cscope 3 FlagIsParam)
            (parserAt "int (*)(void)" (mkScanned 7 LPAREN "(")
               [mkScanned 8 IDENT "void"; mkScanned 12 RPAREN ")"])
            [Void]
            (parserAt "int (*)(void)" (mkScanned 12 RPAREN ")") [])).
  { apply params_last with (c := false); [reflexivity | discriminate]. }
  assert (Hlen : (List.length [Void] <= 4)%nat) by (simpl; lia).
  destruct (parseArgs_drops_void lp64 cscope 3 _ _ _ eq_refl Hparams Hlen) as (H & _ & _).
  exact H.
Defined.

(** ** Every call returns, and what its errors are *)

Lemma reach_trans (p q r : parser) : reach p q -> reach q r -> reach p r.
Proof. intros Hpq Hqr. induction Hqr; [assumption | apply reach_next | apply reach_setEOF]; assumption. Qed.

Lemma measure_next_le (p : parser) : (measure (next p) <= measure p)%nat.
Proof.
  unfold measure, next, Scan.
  destruct (pending (s p)) as [|x rest] eqn:E; simpl; rewrite ?E; simpl;
    destruct (Token_eqb (tok p) EOF); try destruct (Token_eqb (sc_tok x) EOF); lia.
Qed.

Lemma measure_next_lt (p : parser) :
  tok p <> EOF -> (measure (next p) < measure p)%nat.
Proof.
  intros Htok. unfold measure, next, Scan.
  destruct (Token_eqb (tok p) EOF) eqn:Et; [apply Token_eqb_eq in Et; contradiction|].
  destruct (pending (s p)) as [|x rest] eqn:E; simpl; rewrite ?E; simpl;
    try destruct (Token_eqb (sc_tok x) EOF); lia.
Qed.

Lemma measure_setEOF_le (p : parser) : (measure (setEOF p) <= measure p)%nat.
Proof. unfold measure, setEOF. simpl. lia. Qed.

Lemma measure_pos (p : parser) : tok p <> EOF -> (1 <= measure p)%nat.
Proof.
  intros Htok. unfold measure.
  destruct (Token_eqb (tok p) EOF) eqn:E; [apply Token_eqb_eq in E; contradiction | lia].
Qed.

Lemma reach_measure (p q : parser) : reach p q -> (measure q <= measure p)%nat.
Proof.
  induction 1 as [|q _ IH|q _ IH].
  - lia.
  - pose proof (measure_next_le q). lia.
  - pose proof (measure_setEOF_le q). lia.
Qed.

Lemma good_weaken {A : Type} (p0 p q : parser) (r : result A) :
  reach p q -> good p0 q r -> good p0 p r.
Proof. intros Hpq. destruct r; simpl; auto. apply reach_trans. exact Hpq. Qed.

Lemma errorOf_newError (p0 q : parser) (msg : string) :
  reach p0 q -> errorOf p0 (newError q msg).
Proof. intros H. right. right. exists q, msg. split; [assumption | reflexivity]. Qed.

Lemma lookupType_good (ct : CTypes) (sc : Scope) (p0 p : parser) (name : string) (flags : Z) :
  good p0 p (lookupType ct sc p name flags).
Proof.
  unfold lookupType.
  repeat match goal with
         | |- good _ _ (if ?b then _ else _) => destruct b
         | |- good _ _ (match ?x with _ => _ end) => destruct x
         end; simpl; auto using reach_refl; left; reflexivity.
Qed.

Lemma lookupType_Ok (ct : CTypes) (sc : Scope) (p p' : parser) (name : string) (flags : Z) (t : type) :
  lookupType ct sc p name flags = Ok t p' -> p' = p.
Proof.
  unfold lookupType.
  repeat match goal with
         | |- (if ?b then _ else _) = _ -> _ => destruct b
         | |- match ?x with _ => _ end = _ -> _ => destruct x
         end; intros H; congruence.
Qed.

(** After the switch at [ident] the parser is where it was, or one
    identifier further, after [struct] or [union]. *)
Lemma ident_Ok (ct : CTypes) (sc : Scope) (t : option type) (c : bool) (flags : Z)
    (p p' : parser) (st : option type * bool * Z) :
  ident ct sc t c flags p = Ok st p' ->
  p' = p \/ (p' = next p /\ tok p' = IDENT).
Proof.
  unfold ident. destruct (qualifier (lit p) c flags) as [[c' fl']|].
  { intros H. left. congruence. }
  destruct (String.eqb (lit p) "struct" || String.eqb (lit p) "union").
  - destruct (Token_eqb (tok (next p)) IDENT) eqn:Etok; simpl; [| discriminate].
    destruct t; [discriminate|].
    destruct (lookupType ct sc (next p) (lit (next p)) flags) eqn:E; simpl; try discriminate.
    apply lookupType_Ok in E. intros H. right.
    assert (p' = next p) by congruence. subst p'.
    split; [reflexivity | apply Token_eqb_eq, Etok].
  - simpl. destruct t; [discriminate|].
    destruct (lookupType ct sc p (lit p) flags) eqn:E; simpl; try discriminate.
    apply lookupType_Ok in E. intros H. left. congruence.
Qed.

Lemma ident_good (ct : CTypes) (sc : Scope) (p0 p : parser) (t : option type) (c : bool)
    (flags : Z) :
  reach p0 p -> good p0 p (ident ct sc t c flags p).
Proof.
  intros Hp. unfold ident. destruct (qualifier (lit p) c flags) as [[c' fl']|].
  { apply reach_refl. }
  destruct (String.eqb (lit p) "struct" || String.eqb (lit p) "union").
  - destruct (negb (Token_eqb (tok (next p)) IDENT)); simpl; [exact I|].
    destruct t; simpl; [apply errorOf_newError, reach_next, Hp|].
    pose proof (lookupType_good ct sc p0 (next p) (lit (next p)) flags) as Hl.
    destruct (lookupType ct sc (next p) (lit (next p)) flags); simpl in *; auto.
    apply reach_trans with (next p); [apply reach_next, reach_refl | assumption].
  - simpl. destruct t; simpl; [apply errorOf_newError, Hp|].
    pose proof (lookupType_good ct sc p0 p (lit p) flags) as Hl.
    destruct (lookupType ct sc p (lit p) flags); simpl in *; auto.
Qed.

Lemma parseArray_good (p0 p : parser) (t : option type) (inFlags : Z) :
  reach p0 p -> good p0 (next p) (parseArray t inFlags p).
Proof.
  intros Hp. unfold parseArray. destruct t as [t|]; simpl; [| apply errorOf_newError, Hp].
  destruct (tok (next p)); simpl;
    try (apply errorOf_newError, reach_next, Hp);
    try (destruct (isParam inFlags); simpl; apply reach_refl).
  destruct (ParseInt (lit (next p))); simpl; [| apply errorOf_newError, reach_next, Hp].
  unfold expect. destruct (Token_eqb (tok (next (next p))) RBRACK); simpl.
  - destruct (isParam inFlags); simpl; apply reach_next, reach_refl.
  - apply errorOf_newError, reach_next, reach_next, Hp.
Qed.

Lemma parseArrays_good (p0 : parser) (inFlags : Z) :
  forall (n : nat) (t : option type) (p : parser),
  reach p0 p -> tok p <> EOF -> (measure p <= n)%nat ->
  good p0 (next p) (parseArrays n t inFlags p).
Proof.
  induction n as [|n IH]; intros t p Hp Htok Hm.
  - pose proof (measure_pos p Htok). lia.
  - simpl. pose proof (parseArray_good p0 p t inFlags Hp) as Ha.
    destruct (parseArray t inFlags p) as [ret p1| | |]; simpl in *; auto.
    destruct (Token_eqb (tok (next p1)) EOF) eqn:E; simpl.
    + apply reach_next, Ha.
    + assert (Hne : tok (next p1) <> EOF).
      { intros H. apply Token_eqb_eq in H. congruence. }
      pose proof (reach_measure _ _ Ha). pose proof (measure_next_lt p Htok).
      pose proof (measure_next_le p1).
      apply good_weaken with (next (next p1)).
      * apply reach_next, reach_next, Ha.
      * apply IH; [| assumption | lia].
        apply reach_next. apply reach_trans with (next p); [apply reach_next, Hp | exact Ha].
Qed.

Section Callbacks.

Variable p0 : parser.
Variable bound : nat.

Lemma parseArgsWith_good (parseParam : parser -> result (type * bool)) :
  goodCall p0 bound parseParam ->
  forall (n : nat) (args : list type) (p : parser),
  reach p0 p -> tok p <> EOF -> (measure p <= bound)%nat -> (measure p <= n)%nat ->
  good p0 (next p) (parseArgsWith parseParam n args p).
Proof.
  intros Hcb. induction n as [|n IH]; intros args p Hp Htok Hb Hm.
  - pose proof (measure_pos p Htok). lia.
  - simpl. pose proof (Hcb p Hp Htok Hb) as Hc.
    destruct (parseParam p) as [r p1| | |]; simpl in *; auto.
    pose proof (reach_measure _ _ Hc). pose proof (measure_next_lt p Htok).
    assert (Hp1 : reach p0 p1).
    { apply reach_trans with (next p); [apply reach_next, Hp | exact Hc]. }
    destruct (Token_eqb (tok p1) COMMA) eqn:E.
    + apply Token_eqb_eq in E.
      apply good_weaken with (next p1); [apply reach_next, Hc|].
      apply IH; [assumption | congruence | lia | lia].
    + destruct (Token_eqb (tok p1) RPAREN); simpl.
      * exact Hc.
      * apply errorOf_newError, Hp1.
Qed.

Lemma parseFuncWith_good (parseArgs : parser -> result (list type)) (t : type) :
  goodCall p0 bound parseArgs -> goodCall p0 bound (parseFuncWith parseArgs t).
Proof.
  intros Hpa q Hq Htok Hb. unfold parseFuncWith.
  pose proof (Hpa q Hq Htok Hb) as Ha.
  destruct (parseArgs q); simpl in *; auto.
Qed.

Lemma nextTokWith_good (parseArgs : parser -> result (list type)) :
  goodCall p0 bound parseArgs ->
  (forall q a q', parseArgs q = Ok a q' -> tok q' = RPAREN) ->
  forall (n : nat) (isRetFn : bool) (args : list type) (p : parser),
  reach p0 p -> tok p <> EOF -> (measure p <= bound)%nat -> (measure p <= n)%nat ->
  good p0 (next p) (nextTokWith parseArgs n isRetFn args p).
Proof.
  intros Hpa Hrp. induction n as [|n IH]; intros isRetFn args p Hp Htok Hb Hm.
  - pose proof (measure_pos p Htok). lia.
  - simpl. pose proof (measure_next_lt p Htok) as Hlt.
    assert (Hq : reach p0 (next p)) by (apply reach_next, Hp).
    destruct (tok (next p)) eqn:Etok; simpl;
      try (apply errorOf_newError, Hq); try apply reach_refl.
    + (* an identifier *)
      destruct (String.eqb (lit (next p)) "_Nullable" || String.eqb (lit (next p)) "_Nonnull").
      * apply good_weaken with (next (next p)); [apply reach_next, reach_refl|].
        apply IH; [assumption | congruence | lia | lia].
      * apply errorOf_newError, Hq.
    + (* an opening parenthesis *)
      destruct isRetFn; simpl; [apply errorOf_newError, Hq|].
      assert (Hne : tok (next p) <> EOF) by congruence.
      assert (Hb' : (measure (next p) <= bound)%nat) by lia.
      pose proof (Hpa (next p) Hq Hne Hb') as Ha.
      destruct (parseArgs (next p)) as [args' p1| | |] eqn:Eargs; simpl in *; auto.
      pose proof (Hrp _ _ _ Eargs) as Hr.
      pose proof (reach_measure _ _ Ha). pose proof (measure_next_lt (next p) Hne).
      apply good_weaken with (next p1).
      * apply reach_next. apply reach_trans with (next (next p)); [apply reach_next, reach_refl | exact Ha].
      * apply IH; [| congruence | lia | lia].
        apply reach_trans with (next (next p)); [apply reach_next, Hq | exact Ha].
Qed.

End Callbacks.

Lemma parseArgsWith_RPAREN (parseParam : parser -> result (type * bool)) :
  forall (n : nat) (args a : list type) (p p' : parser),
  parseArgsWith parseParam n args p = Ok a p' -> tok p' = RPAREN.
Proof.
  induction n as [|n IH]; intros args a p p'; simpl; [discriminate|].
  destruct (parseParam p) as [r p1| | |]; simpl; try discriminate.
  destruct (Token_eqb (tok p1) COMMA).
  - apply IH.
  - destruct (Token_eqb (tok p1) RPAREN) eqn:E; simpl; [| discriminate].
    intros H. apply Token_eqb_eq in E. congruence.
Qed.

Lemma parse_retry_good (ct : CTypes) (sc : Scope) (p0 : parser) :
  forall (fuel : nat) (inFlags : Z) (t : option type) (c : bool) (flags : Z) (p : parser),
  reach p0 p -> (measure p < fuel)%nat ->
  good p0 p (parse_retry ct sc fuel inFlags t c flags p).
Proof.
  induction fuel as [|f IH]; intros inFlags t c flags p Hp Hm; [lia|].
  assert (Hloop : forall inFlags t c flags q, reach p q -> (measure q < measure p)%nat ->
            good p0 p (parse_retry ct sc f inFlags t c flags q)).
  { intros i t' c' fl q Hq Hlt. apply good_weaken with q; [exact Hq|].
    apply IH; [apply reach_trans with p; assumption | lia]. }
  assert (Hparam : goodCall p0 f (fun q => parse_retry ct sc f FlagIsParam None false 0 (next q))).
  { intros q Hq Htok Hb. apply IH; [apply reach_next, Hq|].
    pose proof (measure_next_lt q Htok). lia. }
  assert (Hargs : goodCall p0 f
            (parseArgsWith (fun q => parse_retry ct sc f FlagIsParam None false 0 (next q)) (S f) [])).
  { intros q Hq Htok Hb. apply parseArgsWith_good with (bound := f); auto. }
  cbn [parse_retry].
  destruct (tok p) eqn:Etok; cbn [bind good]; auto.
  - (* end of input *)
    destruct t; cbn [bind good]; [apply reach_refl | right; left; reflexivity].
  - (* an identifier *)
    assert (Htok : tok p <> EOF) by congruence.
    pose proof (ident_good ct sc p0 p t c flags Hp) as Hi.
    destruct (ident ct sc t c flags p) as [[[t1 c1] fl1] p1| | |] eqn:Ei; cbn [bind good] in *; auto.
    assert (Hlt : (measure (next p1) < measure p)%nat).
    { destruct (ident_Ok _ _ _ _ _ _ _ _ Ei) as [->|[-> Hid]].
      - apply measure_next_lt, Htok.
      - assert (Hne : tok (next p) <> EOF) by congruence.
        pose proof (measure_next_lt _ Hne). pose proof (measure_next_le p). lia. }
    assert (Hn : reach p (next p1)) by (apply reach_next, Hi).
    destruct (negb (fl1 =? 0)); [| apply Hloop; assumption].
    destruct (Token_eqb (tok (next p1)) IDENT); [apply Hloop; assumption|].
    destruct t1; cbn [bind good]; [apply errorOf_newError, reach_trans with p; assumption|].
    destruct (lookupType ct sc (next p1) "int" fl1) as [t2 p2| | |] eqn:El; cbn [bind good]; auto.
    + apply lookupType_Ok in El. subst p2. apply Hloop; assumption.
    + pose proof (lookupType_good ct sc p0 (next p1) "int" fl1) as Hl.
      rewrite El in Hl. exact Hl.
    + pose proof (lookupType_good ct sc p0 (next p1) "int" fl1) as Hl.
      rewrite El in Hl. exact Hl.
  - (* a star *)
    assert (Htok : tok p <> EOF) by congruence.
    destruct t; cbn [bind good]; [| apply errorOf_newError, Hp].
    apply Hloop; [apply reach_next, reach_refl | apply measure_next_lt, Htok].
  - (* an opening parenthesis *)
    assert (Htok : tok p <> EOF) by congruence.
    destruct t as [t|]; cbn [bind good]; [| apply errorOf_newError, Hp].
    pose proof (measure_next_lt p Htok) as Hlt.
    assert (Hq : reach p0 (next p)) by (apply reach_next, Hp).
    unfold expect2.
    destruct (Token_eqb (tok (next p)) MUL || Token_eqb (tok (next p)) XOR) eqn:Estar.
    2:{ destruct (getRetType inFlags); cbn [bind good].
        - apply reach_setEOF, reach_next, reach_refl.
        - apply errorOf_newError, Hq. }
    assert (Hne : tok (next p) <> EOF).
    { intros H. rewrite H in Estar. discriminate. }
    pose proof (nextTokWith_good p0 f _ Hargs
                  (fun q a q' => parseArgsWith_RPAREN _ (S f) [] a q q')
                  (S f) false [] (next p) Hq Hne ltac:(lia) ltac:(lia)) as Hn.
    destruct (nextTokWith _ (S f) false [] (next p)) as [[isRetFn args] p1| | |];
      cbn [bind good] in *; auto.
    pose proof (reach_measure _ _ Hn) as Hm1.
    pose proof (measure_next_lt _ Hne) as Hlt1.
    pose proof (measure_next_le p1) as Hle1.
    assert (Hp1 : reach p0 (next p1)).
    { apply reach_next. apply reach_trans with (next (next p)); [apply reach_next, Hq | exact Hn]. }
    assert (Hpp1 : reach p (next p1)).
    { apply reach_next. apply reach_trans with (next (next p));
        [apply reach_next, reach_next, reach_refl | exact Hn]. }
    assert (Hafter : forall r : result type,
              good p0 (next (next p1)) r ->
              good p0 p
                (let* (t0, p2) := r in
                 if isRetFn then
                   if getRetType inFlags then Ok (t0, c) (setEOF p2)
                   else parse_retry ct sc f inFlags (Some (Signature args (Some t0))) c flags (next p2)
                 else
                   match t0 with
                   | Signature _ _ => parse_retry ct sc f inFlags (Some t0) c flags (next p2)
                   | _ => parse_retry ct sc f inFlags (Some (Pointer t0)) c flags (next p2)
                   end)).
    { intros r Hr. destruct r as [t0 p2| | |]; cbn [bind good] in *; auto.
      pose proof (reach_measure _ _ Hr). pose proof (measure_next_le (next p1)).
      pose proof (measure_next_le p2).
      assert (Hp2 : reach p p2).
      { apply reach_trans with (next (next p1)); [apply reach_next, Hpp1 | exact Hr]. }
      destruct isRetFn.
      - destruct (getRetType inFlags); cbn [bind good].
        + apply reach_setEOF, Hp2.
        + apply Hloop; [apply reach_next, Hp2 | lia].
      - destruct t0; apply Hloop; try (apply reach_next, Hp2); lia. }
    destruct (tok (next p1)) eqn:Etok1;
      try (cbn [bind good]; apply errorOf_newError, Hp1).
    + (* an argument list *)
      apply Hafter. apply parseFuncWith_good with (bound := f); auto; [congruence | lia].
    + (* a bracket group *)
      apply Hafter. apply parseArrays_good; [assumption | congruence | lia].
  - (* a closing parenthesis *)
    destruct t; cbn [bind good]; apply reach_refl.
  - (* an opening bracket *)
    assert (Htok : tok p <> EOF) by congruence.
    pose proof (parseArrays_good p0 inFlags (S f) t p Hp Htok ltac:(lia)) as Ha.
    destruct (parseArrays (S f) t inFlags p) as [t' p1| | |]; cbn [bind good] in *; auto.
    pose proof (reach_measure _ _ Ha). pose proof (measure_next_lt p Htok).
    pose proof (measure_next_le p1).
    apply Hloop; [| lia].
    apply reach_next. apply reach_trans with (next p); [apply reach_next, reach_refl | exact Ha].
  - (* a comma *)
    destruct t; cbn [bind good]; [apply reach_refl | right; left; reflexivity].
Qed.

Lemma ParseFrom_good (ct : CTypes) (sc : Scope) (p : parser) (flags : Z) :
  tok p <> EOF -> good (next p) (next p) (ParseFrom ct sc p flags).
Proof.
  intros Htok. unfold ParseFrom, parse.
  pose proof (parse_retry_good ct sc (next p) (S (List.length (pending (s p)))) flags
                None false 0 (next p) (reach_refl _)) as Hg.
  assert (Hm : (measure (next p) < S (List.length (pending (s p))))%nat).
  { pose proof (measure_next_lt p Htok) as Hlt. unfold measure at 2 in Hlt.
    destruct (Token_eqb (tok p) EOF); lia. }
  specialize (Hg Hm).
  destruct (parse_retry ct sc _ flags None false 0 (next p)) as [r p1| | |];
    cbn [bind good] in *; auto.
  destruct (negb (Token_eqb (tok p1) EOF)); cbn [good].
  - apply errorOf_newError, Hg.
  - exact Hg.
Qed.

(** *** The failing token *)










Section Sound.

Variable sc : Scope.
Variable p0 : parser.




End Sound.











(** ** The parser reads kinds and texts only *)

Lemma next_erase (p : parser) : next (erase p) = erase (next p).
Proof.
  unfold next, erase, Scan. simpl.
  destruct (pending (s p)) as [|x rest] eqn:E; simpl; [rewrite E|]; reflexivity.
Qed.

Lemma val_eraseResult {A : Type} (r : result A) : val (eraseResult r) = val r.
Proof. destruct r; reflexivity. Qed.

Lemma expect_erase (k : Token) (p : parser) :
  expect k (erase p) = eraseResult (expect k p).
Proof.
  unfold expect. rewrite next_erase. simpl.
  destruct (Token_eqb (tok (next p)) k); reflexivity.
Qed.

Lemma lookupType_erase (ct : CTypes) (sc : Scope) (p : parser) (l : string) (flags : Z) :
  lookupType ct sc (erase p) l flags = eraseResult (lookupType ct sc p l flags).
Proof.
  unfold lookupType.
  repeat match goal with
         | |- (if ?b then _ else _) = eraseResult (if ?b then _ else _) => destruct b
         | |- match ?x with _ => _ end = eraseResult (match ?x with _ => _ end) => destruct x
         end; reflexivity.
Qed.

Lemma ident_erase (ct : CTypes) (sc : Scope) (t : option type) (c : bool) (flags : Z)
    (p : parser) :
  ident ct sc t c flags (erase p) = eraseResult (ident ct sc t c flags p).
Proof.
  unfold ident. simpl. destruct (qualifier (lit p) c flags) as [[c' fl']|]; [reflexivity|].
  destruct (String.eqb (lit p) "struct" || String.eqb (lit p) "union").
  - rewrite next_erase. simpl.
    destruct (negb (Token_eqb (tok (next p)) IDENT)); simpl; [reflexivity|].
    destruct t; [reflexivity|]. rewrite lookupType_erase.
    destruct (lookupType ct sc (next p) (lit (next p)) flags); reflexivity.
  - simpl. destruct t; [reflexivity|]. rewrite lookupType_erase.
    destruct (lookupType ct sc p (lit p) flags); reflexivity.
Qed.

Lemma parseArray_erase (t : option type) (inFlags : Z) (p : parser) :
  parseArray t inFlags (erase p) = eraseResult (parseArray t inFlags p).
Proof.
  unfold parseArray. destruct t as [t|]; [| reflexivity].
  rewrite next_erase. simpl.
  destruct (tok (next p)); simpl; try reflexivity.
  - destruct (ParseInt (lit (next p))); simpl; [| reflexivity].
    rewrite expect_erase. destruct (expect RBRACK (next p)); simpl; try reflexivity.
    destruct (isParam inFlags); reflexivity.
  - destruct (isParam inFlags); reflexivity.
Qed.

Lemma parseArrays_erase (inFlags : Z) :
  forall (n : nat) (t : option type) (p : parser),
  parseArrays n t inFlags (erase p) = eraseResult (parseArrays n t inFlags p).
Proof.
  induction n as [|n IH]; intros t p; [reflexivity|].
  simpl. rewrite parseArray_erase.
  destruct (parseArray t inFlags p) as [ret p1| | |]; simpl; try reflexivity.
  rewrite next_erase. simpl.
  destruct (Token_eqb (tok (next p1)) EOF); [reflexivity | apply IH].
Qed.

Lemma parseArgsWith_erase (f : parser -> result (type * bool)) :
  (forall q, f (erase q) = eraseResult (f q)) ->
  forall (n : nat) (args : list type) (p : parser),
  parseArgsWith f n args (erase p) = eraseResult (parseArgsWith f n args p).
Proof.
  intros Hf. induction n as [|n IH]; intros args p; [reflexivity|].
  simpl. rewrite Hf. destruct (f p) as [r p1| | |]; simpl; try reflexivity.
  destruct (Token_eqb (tok p1) COMMA); [apply IH|].
  destruct (negb (Token_eqb (tok p1) RPAREN)); reflexivity.
Qed.

Lemma parseFuncWith_erase (f : parser -> result (list type)) (t : type) (p : parser) :
  (forall q, f (erase q) = eraseResult (f q)) ->
  parseFuncWith f t (erase p) = eraseResult (parseFuncWith f t p).
Proof.
  intros Hf. unfold parseFuncWith. rewrite Hf. destruct (f p); reflexivity.
Qed.

Lemma nextTokWith_erase (f : parser -> result (list type)) :
  (forall q, f (erase q) = eraseResult (f q)) ->
  forall (n : nat) (isRetFn : bool) (args : list type) (p : parser),
  nextTokWith f n isRetFn args (erase p) = eraseResult (nextTokWith f n isRetFn args p).
Proof.
  intros Hf. induction n as [|n IH]; intros isRetFn args p; [reflexivity|].
  simpl. rewrite next_erase. simpl. destruct (tok (next p)); try reflexivity.
  - destruct (String.eqb (lit (next p)) "_Nullable" || String.eqb (lit (next p)) "_Nonnull");
      [apply IH | reflexivity].
  - destruct isRetFn; simpl; [reflexivity|].
    rewrite Hf. destruct (f (next p)); simpl; try reflexivity. apply IH.
Qed.

Lemma parse_retry_erase (ct : CTypes) (sc : Scope) :
  forall (fuel : nat) (inFlags : Z) (t : option type) (c : bool) (flags : Z) (p : parser),
  parse_retry ct sc fuel inFlags t c flags (erase p) =
    eraseResult (parse_retry ct sc fuel inFlags t c flags p).
Proof.
  induction fuel as [|f IH]; intros inFlags t c flags p; [reflexivity|].
  assert (Hloop : forall inFlags t c flags q,
            parse_retry ct sc f inFlags t c flags (next (erase q)) =
            eraseResult (parse_retry ct sc f inFlags t c flags (next q))).
  { intros. rewrite next_erase. apply IH. }
  assert (Hargs : forall q,
            parseArgsWith (fun q => parse_retry ct sc f FlagIsParam None false 0 (next q))
              (S f) [] (erase q) =
            eraseResult
              (parseArgsWith (fun q => parse_retry ct sc f FlagIsParam None false 0 (next q))
                 (S f) [] q)).
  { intros q. apply parseArgsWith_erase. intros q'. apply Hloop. }
  cbn [parse_retry]. change (tok (erase p)) with (tok p).
  destruct (tok p); try reflexivity.
  - (* end of input *)
    destruct t; reflexivity.
  - (* an identifier *)
    rewrite ident_erase.
    destruct (ident ct sc t c flags p) as [[[t1 c1] fl1] p1| | |]; cbn [bind eraseResult];
      try reflexivity.
    destruct (negb (fl1 =? 0)); [| apply Hloop].
    rewrite next_erase. change (tok (erase (next p1))) with (tok (next p1)).
    destruct (Token_eqb (tok (next p1)) IDENT); [apply IH|].
    destruct t1; [reflexivity|]. rewrite lookupType_erase.
    destruct (lookupType ct sc (next p1) "int" fl1); cbn [bind eraseResult];
      try reflexivity. apply IH.
  - (* a star *)
    destruct t; [apply Hloop | reflexivity].
  - (* an opening parenthesis *)
    destruct t as [t|]; [| reflexivity].
    unfold expect2. rewrite next_erase. change (tok (erase (next p))) with (tok (next p)).
    destruct (Token_eqb (tok (next p)) MUL || Token_eqb (tok (next p)) XOR).
    2:{ destruct (getRetType inFlags); reflexivity. }
    rewrite (nextTokWith_erase _ Hargs).
    destruct (nextTokWith _ (S f) false [] (next p)) as [[isRetFn args] p2| | |];
      cbn [bind eraseResult]; try reflexivity.
    rewrite next_erase. change (tok (erase (next p2))) with (tok (next p2)).
    destruct (tok (next p2)); try reflexivity.
    + rewrite (parseFuncWith_erase _ t (next p2) Hargs).
      destruct (parseFuncWith _ t (next p2)) as [t0 p3| | |]; cbn [bind eraseResult];
        try reflexivity.
      destruct isRetFn; [destruct (getRetType inFlags); [reflexivity | apply Hloop]|].
      destruct t0; apply Hloop.
    + rewrite parseArrays_erase.
      destruct (parseArrays (S f) (Some t) 0 (next p2)) as [t0 p3| | |];
        cbn [bind eraseResult]; try reflexivity.
      destruct isRetFn; [destruct (getRetType inFlags); [reflexivity | apply Hloop]|].
      destruct t0; apply Hloop.
  - (* a closing parenthesis *)
    destruct t; reflexivity.
  - (* an opening bracket *)
    rewrite parseArrays_erase.
    destruct (parseArrays (S f) t inFlags p); cbn [bind eraseResult]; try reflexivity.
    apply Hloop.
  - (* a comma *)
    destruct t; reflexivity.
Qed.

Lemma ParseFrom_erase (ct : CTypes) (sc : Scope) (p : parser) (flags : Z) :
  ParseFrom ct sc (erase p) flags = eraseResult (ParseFrom ct sc p flags).
Proof.
  unfold ParseFrom, parse. rewrite next_erase. simpl pending.
  rewrite length_map, parse_retry_erase.
  destruct (parse_retry ct sc _ flags None false 0 (next p)) as [r p1| | |];
    cbn [bind eraseResult]; try reflexivity.
  change (tok (erase p1)) with (tok p1).
  destruct (negb (Token_eqb (tok p1) EOF)); reflexivity.
Qed.


(** ** The order of the qualifiers *)

Lemma isQualifier_keywords (l : string) : isQualifier l = true -> In l keywords.
Proof.
  unfold isQualifier, qualifier, keywords.
  repeat match goal with
         | |- context [String.eqb l ?k] =>
             destruct (String.eqb_spec l k) as [->|_]; [intros _; simpl; tauto|]
         end.
  simpl. discriminate.
Qed.

Lemma qualifier_qualify (l : string) (c : bool) (flags : Z) :
  isQualifier l = true -> qualifier l c flags = Some (qualify (c, flags) l).
Proof.
  intros H. apply isQualifier_keywords in H. unfold keywords in H. simpl in H.
  unfold qualify. simpl fst. simpl snd.
  repeat (destruct H as [<-|H]; [unfold qualifier; simpl;
            try destruct (negb (Z.land flags flagLong =? 0)); reflexivity|]).
  contradiction.
Qed.

Lemma flagSet_In (flags : Z) : flagSet flags = true -> In flags flagSets.
Proof.
  unfold flagSet, flagSets. intros H. apply andb_true_iff in H. destruct H as [H0 H1].
  apply Z.leb_le in H0. apply Z.ltb_lt in H1.
  rewrite <- (Z2Nat.id flags) by assumption.
  apply in_map. apply in_seq. lia.
Qed.

Lemma state_eqb_eq (a b : bool * Z) : state_eqb a b = true -> a = b.
Proof.
  destruct a as [c1 f1], b as [c2 f2]. unfold state_eqb. simpl. intros H.
  apply andb_true_iff in H. destruct H as [Hc Hf].
  apply Bool.eqb_prop in Hc. apply Z.eqb_eq in Hf. congruence.
Qed.

Lemma everyState_spec (check : bool * Z -> bool) (st : bool * Z) :
  everyState check = true -> flagSet (snd st) = true -> check st = true.
Proof.
  unfold everyState. intros H Hfl. rewrite forallb_forall in H.
  specialize (H (snd st) (flagSet_In _ Hfl)). apply andb_true_iff in H.
  destruct st as [[|] fl]; simpl in *; tauto.
Qed.




Lemma next_parserOver_cons (src : string) (x : scanned) (rest : list scanned) :
  next (parserOver src (x :: rest)) = parserAt src x rest.
Proof. reflexivity. Qed.

(** At a qualifier, with no type yet, the switch leaves the parser where it
    is and the code behind it runs with the constness and flags updated. *)
Lemma parse_retry_qualifier (ct : CTypes) (sc : Scope) (fuel : nat) (inFlags : Z)
    (st : bool * Z) (p : parser) :
  tok p = IDENT -> isQualifier (lit p) = true ->
  parse_retry ct sc (S fuel) inFlags None (fst st) (snd st) p =
    afterQualifier ct sc fuel inFlags (qualify st (lit p)) (next p).
Proof.
  intros Htok Hq. cbn [parse_retry]. rewrite Htok. unfold ident.
  rewrite (qualifier_qualify _ _ _ Hq).
  destruct st as [c fl]. simpl fst. simpl snd.
  destruct (qualify (c, fl) (lit p)) as [c' fl']. cbn [bind]. unfold afterQualifier.
  destruct (negb (fl' =? 0)); reflexivity.
Qed.

Lemma afterQualifier_IDENT (ct : CTypes) (sc : Scope) (fuel : nat) (inFlags : Z)
    (st : bool * Z) (q : parser) :
  tok q = IDENT ->
  afterQualifier ct sc fuel inFlags st q =
    parse_retry ct sc fuel inFlags None (fst st) (snd st) q.
Proof.
  intros Htok. unfold afterQualifier. destruct st as [c fl]. rewrite Htok. simpl.
  destruct (negb (fl =? 0)); reflexivity.
Qed.

(** A run of qualifiers: the parser comes to the token behind them with the
    constness and the flags that [qualify] gives. *)
Lemma qualifiers_run (ct : CTypes) (sc : Scope) (src : string) (inFlags : Z)
    (rest : list scanned) (fuel : nat) :
  forall (qs : list scanned) (x : scanned) (st : bool * Z),
  qualifierToken x -> Forall qualifierToken qs ->
  parse_retry ct sc (List.length qs + S fuel) inFlags None (fst st) (snd st)
    (parserAt src x (qs ++ rest)) =
  afterQualifier ct sc fuel inFlags (fold_left qualify (map sc_lit (x :: qs)) st)
    (next (parserOver src rest)).
Proof.
  induction qs as [|y qs IH]; intros x st [Hx Hqx] Hqs.
  - change (List.length (@nil scanned) + S fuel)%nat with (S fuel).
    rewrite parse_retry_qualifier by assumption. reflexivity.
  - inversion Hqs as [|? ? Hy Hqs']; subst.
    change (List.length (y :: qs) + S fuel)%nat with (S (List.length qs + S fuel)).
    rewrite parse_retry_qualifier by assumption.
    change (next (parserAt src x ((y :: qs) ++ rest))) with (parserAt src y (qs ++ rest)).
    rewrite afterQualifier_IDENT by (apply Hy).
    rewrite IH by assumption. reflexivity.
Qed.



Lemma erase_parserOver (src : string) (qs rest : list scanned) :
  erase (parserOver src (qs ++ rest)) =
  parserOver "" (map eraseToken qs ++ map eraseToken rest).
Proof. unfold erase, parserOver. simpl. rewrite map_app. reflexivity. Qed.

Lemma qualifierToken_erase (qs : list scanned) :
  Forall qualifierToken qs -> Forall qualifierToken (map eraseToken qs).
Proof.
  intros H. apply Forall_map. eapply Forall_impl; [| exact H].
  intros x Hx. exact Hx.
Qed.



(** * Further properties *)

(** ** More of the primitive resolver *)

Lemma land_flagComplex_nonzero (flags : Z) :
  Z.land flags flagComplex <> 0 -> flags <> 0.
Proof. intros H H0. apply H. rewrite H0. reflexivity. Qed.

(** X1: once [_Complex] is among the flags, the other flags play no part in
    resolving a keyword: [float] is complex64 and [double] is complex128
    whatever else is set, and any other keyword ends the process. *)
Theorem lookupType_complex (ct : CTypes) (sc : Scope) (p : parser) (l : string) (flags : Z) :
  Z.land flags flagComplex <> 0 ->
  lookupType ct sc p l flags = lookupType ct sc p l flagComplex /\
  lookupType ct sc p "float" flags = Ok (Basic Complex64) p /\
  lookupType ct sc p "double" flags = Ok (Basic Complex128) p /\
  (l <> "float" -> l <> "double" -> lookupType ct sc p l flags = Fatal FatalInvalidType).
Proof.
  intros Hc. pose proof (land_flagComplex_nonzero flags Hc) as Hnz.
  assert (Hgen : forall k, lookupType ct sc p k flags =
            if String.eqb k "float" then Ok (Basic Complex64) p
            else if String.eqb k "double" then Ok (Basic Complex128) p
            else Fatal FatalInvalidType).
  { intros k. unfold lookupType.
    destruct (Z.eqb_spec flags 0) as [|_]; [contradiction|].
    destruct (Z.eqb_spec (Z.land flags flagComplex) 0) as [|_]; [contradiction|].
    reflexivity. }
  split; [| split; [| split]].
  - rewrite Hgen. reflexivity.
  - rewrite Hgen. reflexivity.
  - rewrite Hgen. reflexivity.
  - intros Hf Hd. rewrite Hgen.
    destruct (String.eqb_spec l "float"); [contradiction|].
    destruct (String.eqb_spec l "double"); [contradiction|]. reflexivity.
Qed.

Lemma lookupType_complex_witness :
  lookupType lp64 cscope (newParser "long _Complex double") "double"
    (Z.lor flagLong flagComplex) =
  Ok (Basic Complex128) (newParser "long _Complex double").
Proof.
  assert (Hc : Z.land (Z.lor flagLong flagComplex) flagComplex <> 0) by discriminate.
  destruct (lookupType_complex lp64 cscope (newParser "long _Complex double") "double"
              (Z.lor flagLong flagComplex) Hc) as (_ & _ & H & _).
  exact H.
Defined.

(** X2: with qualifier flags pending the registry is not consulted: the
    outcome is the same under any two registries, and it is a type or the
    end of the process, never a returned error.  So a name of the registry
    behind a qualifier, such as a typedef, is not resolved. *)
Theorem lookupType_pending (ct : CTypes) (sc sc' : Scope) (p : parser) (l : string)
    (flags : Z) :
  flags <> 0 ->
  lookupType ct sc p l flags = lookupType ct sc' p l flags /\
  (forall e, lookupType ct sc p l flags <> Err e).
Proof.
  intros Hnz. unfold lookupType.
  destruct (Z.eqb_spec flags 0) as [|_]; [contradiction|]. simpl.
  split; [reflexivity|]. intros e.
  repeat match goal with
         | |- (if ?b then _ else _) <> _ => destruct b
         | |- match ?x with _ => _ end <> _ => destruct x
         end; discriminate.
Qed.

Lemma lookupType_pending_witness :
  lookupType lp64 [[("size_t", Basic Uint64)]] (newParser "unsigned size_t") "size_t"
    flagUnsigned = Fatal FatalInvalidType.
Proof.
  assert (Hnz : flagUnsigned <> 0) by discriminate.
  destruct (lookupType_pending lp64 [[("size_t", Basic Uint64)]] []
              (newParser "unsigned size_t") "size_t" flagUnsigned Hnz) as (H & _).
  rewrite H. reflexivity.
Defined.

Lemma errorOf_not_InvalidType (p0 : parser) : ~ errorOf p0 ErrInvalidType.
Proof.
  intros [H|[H|(q & msg & _ & H)]]; discriminate.
Qed.

(** X3: the error value [ErrInvalidType] is never returned: not by
    [lookupType], whatever its arguments, and not by [ParseType], whatever
    the input, the registry and the flags. *)
Theorem ErrInvalidType_never (ct : CTypes) (sc : Scope) (p : parser) (l qualType : string)
    (qflags flags : Z) :
  lookupType ct sc p l qflags <> Err ErrInvalidType /\
  ParseType ct sc qualType flags <> Err ErrInvalidType.
Proof.
  split.
  - pose proof (lookupType_good ct sc p p l qflags) as Hg. intros H. rewrite H in Hg.
    exact (errorOf_not_InvalidType _ Hg).
  - assert (Hill : tok (newParser qualType) <> EOF) by discriminate.
    pose proof (ParseFrom_good ct sc (newParser qualType) flags Hill) as Hg.
    fold (ParseType ct sc qualType flags) in Hg.
    intros H. rewrite H in Hg. exact (errorOf_not_InvalidType _ Hg).
Qed.

(** ** More of the array rule *)



(** ** What a call that returns a value keeps *)

Section Kept.

(** A property of the parser that reading a token and setting the current
    token to EOF keep is kept by every call that returns a value. *)
Variable Inv : parser -> Prop.
Hypothesis Inv_next : forall p, Inv p -> Inv (next p).
Hypothesis Inv_setEOF : forall p, Inv p -> Inv (setEOF p).

Lemma ident_keeps (ct : CTypes) (sc : Scope) (t : option type) (c : bool) (flags : Z) :
  keeps Inv (ident ct sc t c flags).
Proof.
  intros p a p' Hp H. destruct (ident_Ok _ _ _ _ _ _ _ _ H) as [->|[-> _]]; auto.
Qed.

Lemma parseArray_keeps (t : option type) (inFlags : Z) :
  keeps Inv (parseArray t inFlags).
Proof.
  intros p a p' Hp. unfold parseArray. destruct t as [t|]; [| discriminate].
  destruct (tok (next p)); simpl; try discriminate.
  - destruct (ParseInt (lit (next p))); simpl; [| discriminate].
    unfold expect. destruct (Token_eqb (tok (next (next p))) RBRACK); simpl; [| discriminate].
    destruct (isParam inFlags); intros H; injection H as _ <-; auto.
  - destruct (isParam inFlags); intros H; injection H as _ <-; auto.
Qed.

Lemma parseArrays_keeps (inFlags : Z) :
  forall (n : nat) (t : option type), keeps Inv (parseArrays n t inFlags).
Proof.
  induction n as [|n IH]; intros t p a p' Hp; simpl; [discriminate|].
  destruct (parseArray t inFlags p) as [ret p1| | |] eqn:E; simpl; try discriminate.
  apply parseArray_keeps in E; [| assumption].
  destruct (Token_eqb (tok (next p1)) EOF).
  - intros H. injection H as _ <-. auto.
  - apply IH. auto.
Qed.

Lemma parseArgsWith_keeps (f : parser -> result (type * bool)) :
  keeps Inv f -> forall (n : nat) (args : list type), keeps Inv (parseArgsWith f n args).
Proof.
  intros Hf. induction n as [|n IH]; intros args p a p' Hp; simpl; [discriminate|].
  destruct (f p) as [r p1| | |] eqn:E; simpl; try discriminate.
  apply Hf in E; [| assumption].
  destruct (Token_eqb (tok p1) COMMA); [apply IH; assumption|].
  destruct (negb (Token_eqb (tok p1) RPAREN)); [discriminate|].
  intros H. injection H as _ <-. assumption.
Qed.

Lemma parseFuncWith_keeps (f : parser -> result (list type)) (t : type) :
  keeps Inv f -> keeps Inv (parseFuncWith f t).
Proof.
  intros Hf p a p' Hp. unfold parseFuncWith.
  destruct (f p) as [args p1| | |] eqn:E; simpl; try discriminate.
  apply Hf in E; [| assumption]. intros H. injection H as _ <-. assumption.
Qed.

Lemma nextTokWith_keeps (f : parser -> result (list type)) :
  keeps Inv f ->
  forall (n : nat) (isRetFn : bool) (args : list type),
  keeps Inv (nextTokWith f n isRetFn args).
Proof.
  intros Hf. induction n as [|n IH]; intros isRetFn args p a p' Hp; simpl; [discriminate|].
  destruct (tok (next p)); try discriminate.
  - destruct (String.eqb (lit (next p)) "_Nullable" || String.eqb (lit (next p)) "_Nonnull");
      [| discriminate].
    apply IH. auto.
  - destruct isRetFn; simpl; [discriminate|].
    destruct (f (next p)) as [args' p1| | |] eqn:E; simpl; try discriminate.
    apply Hf in E; [| auto]. apply IH. assumption.
  - intros H. injection H as _ <-. auto.
Qed.

Lemma parse_retry_keeps (ct : CTypes) (sc : Scope) :
  forall (fuel : nat) (inFlags : Z) (t : option type) (c : bool) (flags : Z),
  keeps Inv (parse_retry ct sc fuel inFlags t c flags).
Proof.
  induction fuel as [|f IH]; intros inFlags t c flags p a p' Hp; [discriminate|].
  assert (Hparam : keeps Inv (fun q => parse_retry ct sc f FlagIsParam None false 0 (next q))).
  { intros q b q' Hq H. apply IH in H; auto. }
  pose proof (parseArgsWith_keeps _ Hparam (S f) []) as Hargs.
  cbn [parse_retry]. destruct (tok p); try discriminate.
  - destruct t; [| discriminate]. intros H. injection H as _ <-. assumption.
  - destruct (ident ct sc t c flags p) as [[[t1 c1] fl1] p1| | |] eqn:E; cbn [bind];
      try discriminate.
    apply ident_keeps in E; [| assumption].
    destruct (negb (fl1 =? 0)); [| apply IH; auto].
    destruct (Token_eqb (tok (next p1)) IDENT); [apply IH; auto|].
    destruct t1; [discriminate|].
    destruct (lookupType ct sc (next p1) "int" fl1) as [t2 p2| | |] eqn:El; cbn [bind];
      try discriminate.
    apply lookupType_Ok in El. subst p2. apply IH. auto.
  - destruct t; [| discriminate]. apply IH. auto.
  - destruct t as [t|]; [| discriminate]. unfold expect2.
    destruct (Token_eqb (tok (next p)) MUL || Token_eqb (tok (next p)) XOR).
    2:{ destruct (getRetType inFlags); [| discriminate].
        intros H. injection H as _ <-. auto. }
    destruct (nextTokWith _ (S f) false [] (next p)) as [[isRetFn args] p1| | |] eqn:En;
      cbn [bind]; try discriminate.
    apply (nextTokWith_keeps _ Hargs) in En; [| auto].
    assert (Hafter : forall (t0 : type) (p2 : parser), Inv p2 ->
              (if isRetFn then
                 if getRetType inFlags then Ok (t0, c) (setEOF p2)
                 else parse_retry ct sc f inFlags (Some (Signature args (Some t0))) c flags (next p2)
               else
                 match t0 with
                 | Signature _ _ => parse_retry ct sc f inFlags (Some t0) c flags (next p2)
                 | _ => parse_retry ct sc f inFlags (Some (Pointer t0)) c flags (next p2)
                 end) = Ok a p' -> Inv p').
    { intros t0 p2 Hp2. destruct isRetFn.
      - destruct (getRetType inFlags); [intros H; injection H as _ <-; auto | apply IH; auto].
      - destruct t0; apply IH; auto. }
    destruct (tok (next p1)); try discriminate.
    + destruct (parseFuncWith _ t (next p1)) as [t0 p2| | |] eqn:Ef; cbn [bind];
        try discriminate.
      apply (parseFuncWith_keeps _ t Hargs) in Ef; [| auto]. apply Hafter, Ef.
    + destruct (parseArrays (S f) (Some t) 0 (next p1)) as [t0 p2| | |] eqn:Ea; cbn [bind];
        try discriminate.
      apply parseArrays_keeps in Ea; [| auto]. apply Hafter, Ea.
  - destruct t; intros H; injection H as _ <-; assumption.
  - destruct (parseArrays (S f) t inFlags p) as [t' p1| | |] eqn:Ea; cbn [bind];
      try discriminate.
    apply parseArrays_keeps in Ea; [| assumption]. apply IH. auto.
  - destruct t; [| discriminate]. intros H. injection H as _ <-. assumption.
Qed.

End Kept.

Lemma noEOF_next (p : parser) : noEOF p -> noEOF (next p).
Proof.
  unfold noEOF, next, Scan. destruct (pending (s p)) as [|x rest] eqn:E; simpl.
  - rewrite E. auto.
  - intros H. inversion H. assumption.
Qed.

Lemma noEOF_setEOF (p : parser) : noEOF p -> noEOF (setEOF p).
Proof. auto. Qed.

Lemma scannedAt_EOF (p : parser) :
  scannedAt p -> tok p = EOF -> pending (s p) = [].
Proof.
  intros (q & Hq & ->). unfold noEOF in Hq. unfold next, Scan.
  destruct (pending (s q)) as [|x rest] eqn:E; simpl.
  - intros _. exact E.
  - intros H. inversion Hq. contradiction.
Qed.

Lemma scannedAt_noEOF (p : parser) : scannedAt p -> noEOF p.
Proof. intros (q & Hq & ->). apply noEOF_next, Hq. Qed.

(** The token a call of [parse] returns at. *)
Lemma parse_retry_returns_at (ct : CTypes) (sc : Scope) :
  forall (fuel : nat) (inFlags : Z) (t : option type) (c : bool) (flags : Z)
         (p p' : parser) (a : type * bool),
  parse_retry ct sc fuel inFlags t c flags p = Ok a p' ->
  tok p' = RPAREN \/ tok p' = COMMA \/ tok p' = EOF.
Proof.
  induction fuel as [|f IH]; intros inFlags t c flags p p' a; [discriminate|].
  cbn [parse_retry]. destruct (tok p) eqn:Etok; try discriminate.
  - destruct t; [| discriminate]. intros H. injection H as _ <-. auto.
  - destruct (ident ct sc t c flags p) as [[[t1 c1] fl1] p1| | |]; cbn [bind];
      try discriminate.
    destruct (negb (fl1 =? 0)); [| apply IH].
    destruct (Token_eqb (tok (next p1)) IDENT); [apply IH|].
    destruct t1; [discriminate|].
    destruct (lookupType ct sc (next p1) "int" fl1); cbn [bind]; try discriminate.
    apply IH.
  - destruct t; [| discriminate]. apply IH.
  - destruct t as [t|]; [| discriminate]. unfold expect2.
    destruct (Token_eqb (tok (next p)) MUL || Token_eqb (tok (next p)) XOR).
    2:{ destruct (getRetType inFlags); [| discriminate].
        intros H. injection H as _ <-. auto. }
    destruct (nextTokWith _ (S f) false [] (next p)) as [[isRetFn args] p1| | |];
      cbn [bind]; try discriminate.
    assert (Hafter : forall (t0 : type) (p2 : parser),
              (if isRetFn then
                 if getRetType inFlags then Ok (t0, c) (setEOF p2)
                 else parse_retry ct sc f inFlags (Some (Signature args (Some t0))) c flags (next p2)
               else
                 match t0 with
                 | Signature _ _ => parse_retry ct sc f inFlags (Some t0) c flags (next p2)
                 | _ => parse_retry ct sc f inFlags (Some (Pointer t0)) c flags (next p2)
                 end) = Ok a p' ->
              tok p' = RPAREN \/ tok p' = COMMA \/ tok p' = EOF).
    { intros t0 p2. destruct isRetFn.
      - destruct (getRetType inFlags); [intros H; injection H as _ <-; auto | apply IH].
      - destruct t0; apply IH. }
    destruct (tok (next p1)); try discriminate.
    + destruct (parseFuncWith _ t (next p1)); cbn [bind]; try discriminate. apply Hafter.
    + destruct (parseArrays (S f) (Some t) 0 (next p1)); cbn [bind]; try discriminate.
      apply Hafter.
  - destruct t; intros H; injection H as _ <-; auto.
  - destruct (parseArrays (S f) t inFlags p); cbn [bind]; try discriminate. apply IH.
  - destruct t; [| discriminate]. intros H. injection H as _ <-. auto.
Qed.

(** Without [GetRetType], the current token of a call that returns is the
    token last scanned. *)
Lemma parse_retry_scannedAt (ct : CTypes) (sc : Scope) :
  forall (fuel : nat) (inFlags : Z) (t : option type) (c : bool) (flags : Z)
         (p p' : parser) (a : type * bool),
  getRetType inFlags = false -> scannedAt p ->
  parse_retry ct sc fuel inFlags t c flags p = Ok a p' -> scannedAt p'.
Proof.
  induction fuel as [|f IH]; intros inFlags t c flags p p' a Hg Hp; [discriminate|].
  pose proof (scannedAt_noEOF p Hp) as Hn.
  assert (Hloop : forall t c flags q, noEOF q ->
            parse_retry ct sc f inFlags t c flags (next q) = Ok a p' -> scannedAt p').
  { intros t' c' fl q Hq. apply IH; [assumption|]. exists q. auto. }
  assert (Hargs : keeps noEOF
            (parseArgsWith (fun q => parse_retry ct sc f FlagIsParam None false 0 (next q))
               (S f) [])).
  { apply parseArgsWith_keeps. intros q b q' Hq H.
    apply (parse_retry_keeps noEOF noEOF_next noEOF_setEOF) in H; auto using noEOF_next. }
  cbn [parse_retry]. rewrite Hg. destruct (tok p) eqn:Etok; try discriminate.
  - destruct t; [| discriminate]. intros H. injection H as _ <-. assumption.
  - destruct (ident ct sc t c flags p) as [[[t1 c1] fl1] p1| | |] eqn:E; cbn [bind];
      try discriminate.
    apply (ident_keeps noEOF noEOF_next) in E; [| assumption].
    destruct (negb (fl1 =? 0)); [| apply Hloop; assumption].
    destruct (Token_eqb (tok (next p1)) IDENT); [apply Hloop; assumption|].
    destruct t1; [discriminate|].
    destruct (lookupType ct sc (next p1) "int" fl1) as [t2 p2| | |] eqn:El; cbn [bind];
      try discriminate.
    apply lookupType_Ok in El. subst p2. apply Hloop; assumption.
  - destruct t; [| discriminate]. apply Hloop; assumption.
  - destruct t as [t|]; [| discriminate]. unfold expect2.
    destruct (Token_eqb (tok (next p)) MUL || Token_eqb (tok (next p)) XOR);
      [| discriminate].
    destruct (nextTokWith _ (S f) false [] (next p)) as [[isRetFn args] p1| | |] eqn:En;
      cbn [bind]; try discriminate.
    apply (nextTokWith_keeps noEOF noEOF_next _ Hargs) in En; [| apply noEOF_next, Hn].
    assert (Hafter : forall (t0 : type) (p2 : parser), noEOF p2 ->
              (if isRetFn then
                 parse_retry ct sc f inFlags (Some (Signature args (Some t0))) c flags (next p2)
               else
                 match t0 with
                 | Signature _ _ => parse_retry ct sc f inFlags (Some t0) c flags (next p2)
                 | _ => parse_retry ct sc f inFlags (Some (Pointer t0)) c flags (next p2)
                 end) = Ok a p' -> scannedAt p').
    { intros t0 p2 Hp2. destruct isRetFn; [apply Hloop; assumption|].
      destruct t0; apply Hloop; assumption. }
    destruct (tok (next p1)); try discriminate.
    + destruct (parseFuncWith _ t (next p1)) as [t0 p2| | |] eqn:Ef; cbn [bind];
        try discriminate.
      apply (parseFuncWith_keeps noEOF _ t Hargs) in Ef; [| apply noEOF_next, En].
      apply Hafter, Ef.
    + destruct (parseArrays (S f) (Some t) 0 (next p1)) as [t0 p2| | |] eqn:Ea; cbn [bind];
        try discriminate.
      apply (parseArrays_keeps noEOF noEOF_next) in Ea; [| apply noEOF_next, En].
      apply Hafter, Ea.
  - destruct t; intros H; injection H as _ <-; assumption.
  - destruct (parseArrays (S f) t inFlags p) as [t' p1| | |] eqn:Ea; cbn [bind];
      try discriminate.
    apply (parseArrays_keeps noEOF noEOF_next) in Ea; [| assumption].
    apply Hloop; assumption.
  - destruct t; [| discriminate]. intros H. injection H as _ <-. assumption.
Qed.

Lemma scanAll_noEOF (text : string) :
  forall (off : Z) (cur : option scanned),
  (forall x, cur = Some x -> sc_tok x <> EOF) ->
  Forall (fun x => sc_tok x <> EOF) (scanAll off text cur).
Proof.
  induction text as [|ch text IH]; intros off cur Hcur; simpl.
  - destruct cur as [x|]; simpl; [constructor; auto | constructor].
  - assert (Hflush : Forall (fun x => sc_tok x <> EOF) (flush cur)).
    { destruct cur as [x|]; simpl; [constructor; auto | constructor]. }
    assert (Hrest : Forall (fun x => sc_tok x <> EOF)
              (flush cur ++
               (if isBlank ch then scanAll (off + 1) text None
                else if isLetter ch then
                  scanAll (off + 1) text (Some (mkScanned off IDENT (String ch "")))
                else if isDecimal ch then
                  scanAll (off + 1) text (Some (mkScanned off INT (String ch "")))
                else mkScanned off (symbol ch) (String ch "") :: scanAll (off + 1) text None))%list).
    { apply Forall_app. split; [assumption|].
      destruct (isBlank ch); [apply IH; discriminate|].
      destruct (isLetter ch); [apply IH; intros x H; injection H as <-; discriminate|].
      destruct (isDecimal ch); [apply IH; intros x H; injection H as <-; discriminate|].
      constructor; [| apply IH; discriminate].
      simpl. unfold symbol.
      repeat match goal with |- (if ?b then _ else _) <> _ => destruct b end; discriminate. }
    destruct cur as [x|]; [| exact Hrest].
    destruct (match sc_tok x with
              | IDENT => isLetter ch || isDecimal ch
              | INT => isDecimal ch
              | _ => false
              end); [| exact Hrest].
    apply IH. intros y H. injection H as <-. simpl. apply Hcur. reflexivity.
Qed.

(** X4: a call of [parse] that returns a value returns at a closing
    parenthesis, at a comma or at the end of the input (which [GetRetType]
    may have set): these are the only tokens at which its loop stops. *)
Theorem parse_returns_at (ct : CTypes) (sc : Scope) (fuel : nat) (flags : Z)
    (p p' : parser) (a : type * bool) :
  parse ct sc fuel flags p = Ok a p' ->
  tok p' = RPAREN \/ tok p' = COMMA \/ tok p' = EOF.
Proof. unfold parse. apply parse_retry_returns_at. Qed.

Lemma parse_returns_at_witness :
  tok (parserAt "int (*)(char, int)" (mkScanned 12 COMMA ",")
         [mkScanned 14 IDENT "int"; mkScanned 17 RPAREN ")"]) = RPAREN \/
  tok (parserAt "int (*)(char, int)" (mkScanned 12 COMMA ",")
         [mkScanned 14 IDENT "int"; mkScanned 17 RPAREN ")"]) = COMMA \/
  tok (parserAt "int (*)(char, int)" (mkScanned 12 COMMA ",")
         [mkScanned 14 IDENT "int"; mkScanned 17 RPAREN ")"]) = EOF.
Proof.
  apply (parse_returns_at lp64 cscope 3 FlagIsParam
           (parserAt "int (*)(char, int)" (mkScanned 7 LPAREN "(")
              [mkScanned 8 IDENT "char"; mkScanned 12 COMMA ","; mkScanned 14 IDENT "int";
               mkScanned 17 RPAREN ")"])
           _ (Basic Int8, false)).
  reflexivity.
Defined.

(** X5: without [GetRetType], a [ParseType] that succeeds has read every
    token of the input: it ends at EOF with no token left pending.  With
    [GetRetType] tokens can be left unread, as for [int (int)]. *)
Theorem ParseType_reads_all (ct : CTypes) (sc : Scope) (qualType : string) (flags : Z)
    (q' : parser) (b : type * bool) :
  getRetType flags = false ->
  ParseType ct sc qualType flags = Ok b q' ->
  (tok q' = EOF /\ pending (s q') = []) /\
  match ParseType ct sc "int (int)" FlagGetRetType with
  | Ok r q => r = (Basic Int32, false) /\ pending (s q) <> []
  | _ => False
  end.
Proof.
  intros Hg Hpt. split; [| vm_compute; split; [reflexivity | discriminate]].
  unfold ParseType, ParseFrom, parse in Hpt.
  destruct (parse_retry ct sc _ flags None false 0 (next (newParser qualType)))
    as [r p1| | |] eqn:E; cbn [bind] in Hpt; try discriminate.
  destruct (Token_eqb (tok p1) EOF) eqn:Etok; simpl in Hpt; [| discriminate].
  injection Hpt as _ <-. apply Token_eqb_eq in Etok. split; [assumption|].
  apply scannedAt_EOF; [| assumption].
  apply (parse_retry_scannedAt _ _ _ _ _ _ _ _ _ _ Hg) in E; [assumption|].
  exists (newParser qualType). split; [| reflexivity].
  unfold noEOF. simpl. apply scanAll_noEOF. discriminate.
Qed.

Lemma ParseType_reads_all_witness :
  tok (endOf "char *") = EOF /\ pending (s (endOf "char *")) = [].
Proof.
  exact (proj1 (ParseType_reads_all lp64 cscope "char *" 0 (endOf "char *")
                  (Pointer (Basic Int8), false) eq_refl eq_refl)).
Defined.

Lemma parseArray_scanned (t : option type) (inFlags : Z) (p p' : parser) (r : type) :
  noEOF p -> parseArray t inFlags p = Ok r p' -> noEOF p'.
Proof. intros Hp H. exact (parseArray_keeps noEOF noEOF_next t inFlags p r p' Hp H). Qed.

(** X6: [parseArrays] returns a type only at the end of the input, with no
    token left: it reads on, one bracket group after the other, until the
    scanner gives EOF behind a group. *)
Theorem parseArrays_ends_at_EOF (fuel : nat) (t : option type) (inFlags : Z)
    (p p' : parser) (r : type) :
  noEOF p ->
  parseArrays fuel t inFlags p = Ok r p' ->
  tok p' = EOF /\ pending (s p') = [].
Proof.
  revert t p. induction fuel as [|n IH]; intros t p Hp; simpl; [discriminate|].
  destruct (parseArray t inFlags p) as [ret p1| | |] eqn:Ea; simpl; try discriminate.
  apply parseArray_scanned in Ea; [| assumption].
  destruct (Token_eqb (tok (next p1)) EOF) eqn:E.
  - intros H. injection H as _ <-. apply Token_eqb_eq in E. split; [assumption|].
    apply scannedAt_EOF; [| assumption]. exists p1. auto.
  - apply IH. apply noEOF_next, Ea.
Qed.

Lemma parseArrays_ends_at_EOF_witness :
  pending (s (next (parserAt "int [2]" (mkScanned 6 RBRACK "]") []))) = [].
Proof.
  assert (Hn : noEOF (parserAt "int [2]" (mkScanned 4 LBRACK "[")
                        [mkScanned 5 INT "2"; mkScanned 6 RBRACK "]"])).
  { repeat constructor; discriminate. }
  exact (proj2 (parseArrays_ends_at_EOF 1 (Some (Basic Int32)) 0
           (parserAt "int [2]" (mkScanned 4 LBRACK "[")
              [mkScanned 5 INT "2"; mkScanned 6 RBRACK "]"])
           (next (parserAt "int [2]" (mkScanned 6 RBRACK "]") []))
           (Array (Basic Int32) 2) Hn eq_refl)).
Defined.

(** ** More of the argument lists *)

Lemma parseArgsWith_NotVoid (f : parser -> result (type * bool)) :
  forall (n : nat) (args a : list type) (p p' : parser),
  Forall (fun t => t <> Void) args ->
  parseArgsWith f n args p = Ok a p' -> Forall (fun t => t <> Void) a.
Proof.
  induction n as [|n IH]; intros args a p p' Hargs; simpl; [discriminate|].
  destruct (f p) as [r p1| | |]; simpl; try discriminate.
  assert (Hargs' : Forall (fun t => t <> Void)
            (if NotVoid (fst r) then (args ++ [fst r])%list else args)).
  { destruct (fst r); simpl; try assumption;
      apply Forall_app; split; try assumption; repeat constructor; discriminate. }
  destruct (Token_eqb (tok p1) COMMA); [apply IH; assumption|].
  destruct (negb (Token_eqb (tok p1) RPAREN)); [discriminate|].
  intros H. injection H as <- _. assumption.
Qed.

(** X7: the function type that [parseFunc] builds has no Void among its
    parameters and no Void as its result: a Void return type gives the
    function no result at all, any other type is its one result; and the
    call returns at the closing parenthesis of the argument list. *)
Theorem parseFunc_no_Void (ct : CTypes) (sc : Scope) (fuel : nat) (t r : type)
    (p p' : parser) :
  parseFunc ct sc fuel t p = Ok r p' ->
  exists args res,
    r = Signature args res /\
    Forall (fun a => a <> Void) args /\
    res <> Some Void /\
    (t = Void -> res = None) /\
    (t <> Void -> res = Some t) /\
    tok p' = RPAREN.
Proof.
  unfold parseFunc, parseFuncWith, parseArgs.
  destruct (parseArgsWith _ (S fuel) [] p) as [args p1| | |] eqn:E; simpl; try discriminate.
  intros H. injection H as <- <-.
  exists args, (if NotVoid t then Some t else None).
  split; [reflexivity|]. split.
  { eapply parseArgsWith_NotVoid; [| exact E]. constructor. }
  split; [destruct t; simpl; discriminate|].
  split; [intros ->; reflexivity|].
  split; [intros Hnv; destruct t; try reflexivity; contradiction|].
  eapply parseArgsWith_RPAREN. exact E.
Qed.

Lemma parseFunc_no_Void_witness :
  exists args res,
    Signature [Basic Int32] None = Signature args res /\
    Forall (fun a => a <> Void) args /\
    res <> Some Void /\
    (Void = Void -> res = None) /\
    (Void <> Void -> res = Some Void) /\
    tok (parserAt "void (*)(int, void)" (mkScanned 18 RPAREN ")") []) = RPAREN.
Proof.
  apply (parseFunc_no_Void lp64 cscope 4 Void (Signature [Basic Int32] None)
           (parserAt "void (*)(int, void)" (mkScanned 8 LPAREN "(")
              [mkScanned 9 IDENT "int"; mkScanned 12 COMMA ","; mkScanned 14 IDENT "void";
               mkScanned 18 RPAREN ")"])
           (parserAt "void (*)(int, void)" (mkScanned 18 RPAREN ")") [])).
  reflexivity.
Defined.

(** X8: an empty parameter.  Right before the closing parenthesis it is
    accepted and adds nothing: [()] is the empty list and a comma before the
    closing parenthesis is ignored.  Before a comma, or at the end of the
    input, it is the error [io.ErrUnexpectedEOF]. *)
Theorem parseArgs_empty_parameter (ct : CTypes) (sc : Scope) (fuel n : nat)
    (args : list type) (p : parser) :
  (tok (next p) = RPAREN ->
     parseArgsWith (parse ct sc (S fuel) FlagIsParam) (S n) args p = Ok args (next p)) /\
  (tok (next p) = COMMA \/ tok (next p) = EOF ->
     parseArgsWith (parse ct sc (S fuel) FlagIsParam) (S n) args p = Err ErrUnexpectedEOF).
Proof.
  split.
  - intros Htok. cbn [parseArgsWith]. unfold parse. cbn [parse_retry]. rewrite Htok.
    cbn [bind fst NotVoid]. rewrite Htok. reflexivity.
  - intros [Htok|Htok]; cbn [parseArgsWith]; unfold parse; cbn [parse_retry];
      rewrite Htok; reflexivity.
Qed.

Lemma parseArgs_empty_parameter_witness :
  parseArgs lp64 cscope 1 (parserAt "int (*)()" (mkScanned 7 LPAREN "(")
                             [mkScanned 8 RPAREN ")"]) =
  Ok [] (parserAt "int (*)()" (mkScanned 8 RPAREN ")") []).
Proof.
  destruct (parseArgs_empty_parameter lp64 cscope 0 1 []
              (parserAt "int (*)()" (mkScanned 7 LPAREN "(") [mkScanned 8 RPAREN ")"]))
    as (H & _).
  exact (H eq_refl).
Defined.

(** ** The first token *)

(** X9: what [ParseType] does with an input that does not start with an
    identifier.  A star, an opening bracket or an opening parenthesis with
    no type before it is a [ParseTypeError] at that token; a closing
    parenthesis is the error "unexpect token )"; a comma, like the empty
    input, is the bare [io.ErrUnexpectedEOF]; any other token (a number, a
    caret, a closing bracket, an illegal character) ends the process. *)
Theorem ParseFrom_first_token (ct : CTypes) (sc : Scope) (src : string) (x : scanned)
    (rest : list scanned) (flags : Z) :
  sc_tok x <> IDENT ->
  ParseFrom ct sc (parserOver src (x :: rest)) flags =
    match sc_tok x with
    | MUL => Err (ParseTypeError src (sc_pos x) "pointer to nil")
    | LBRACK => Err (ParseTypeError src (sc_pos x) "array to nil")
    | LPAREN => Err (ParseTypeError src (sc_pos x) "no function return type")
    | RPAREN => Err (ParseTypeError src (sc_pos x) "unexpect token )")
    | COMMA | EOF => Err ErrUnexpectedEOF
    | _ => Fatal FatalUnknownToken
    end /\
  ParseFrom ct sc (parserOver src []) flags = Err ErrUnexpectedEOF.
Proof.
  intros Hx. split; [| reflexivity].
  unfold ParseFrom, parse. simpl pending.
  change (next (parserOver src (x :: rest))) with (parserAt src x rest).
  cbn [parse_retry List.length]. change (tok (parserAt src x rest)) with (sc_tok x).
  destruct (sc_tok x) eqn:E; try reflexivity; try congruence.
  cbn [bind]. change (tok (parserAt src x rest)) with (sc_tok x). rewrite E. reflexivity.
Qed.

Lemma ParseFrom_first_token_witness :
  ParseType lp64 cscope "* int" 0 = Err (ParseTypeError "* int" 0 "pointer to nil").
Proof.
  assert (Hx : MUL <> IDENT) by discriminate.
  exact (proj1 (ParseFrom_first_token lp64 cscope "* int" (mkScanned 0 MUL "*")
                  [mkScanned 2 IDENT "int"] 0 Hx)).
Defined.

(** ** Carets, tags and late qualifiers *)





Lemma isQualifier_false (l : string) (c : bool) (flags : Z) :
  isQualifier l = false -> qualifier l c flags = None.
Proof.
  unfold isQualifier, qualifier.
  repeat match goal with
         | |- context [String.eqb l ?k] => destruct (String.eqb l k)
         end; simpl; try discriminate; try reflexivity.
  all: destruct (negb (Z.land flags flagLong =? 0)); discriminate.
Qed.

(** X11: a tag.  At [struct] or [union] followed by an identifier that is
    no keyword of the switch, the parser does exactly what it does at that
    identifier alone: the name is resolved the same way, and whether it was
    a struct or a union is not kept.  Any identifier behind [struct] or
    [union] is taken for the tag, a keyword of the switch too: with a type
    already there it is the error "illegal syntax: multiple types?", with
    none it is resolved by [lookupType] and the loop goes on.  Followed by
    a token that is not an identifier, or by nothing, [struct] and [union]
    end the process. *)
Theorem struct_tag (ct : CTypes) (sc : Scope) (fuel : nat) (inFlags flags : Z)
    (t : option type) (c : bool) (src : string) (k x : scanned) (rest : list scanned) :
  sc_tok k = IDENT ->
  sc_lit k = "struct" \/ sc_lit k = "union" ->
  (sc_tok x = IDENT -> isQualifier (sc_lit x) = false ->
   sc_lit x <> "struct" -> sc_lit x <> "union" ->
   parse_retry ct sc (S fuel) inFlags t c flags (parserAt src k (x :: rest)) =
   parse_retry ct sc (S fuel) inFlags t c flags (parserAt src x rest)) /\
  (sc_tok x = IDENT ->
   parse_retry ct sc (S fuel) inFlags t c flags (parserAt src k (x :: rest)) =
     match t with
     | Some _ => Err (newError (parserAt src x rest) "illegal syntax: multiple types?")
     | None =>
         let* (t', p) := lookupType ct sc (parserAt src x rest) (sc_lit x) flags in
         parse_retry ct sc fuel inFlags (Some t') c 0 (next p)
     end) /\
  (sc_tok x <> IDENT ->
   parse_retry ct sc (S fuel) inFlags t c flags (parserAt src k (x :: rest)) =
     Fatal FatalStructUnion) /\
  parse_retry ct sc (S fuel) inFlags t c flags (parserAt src k []) = Fatal FatalStructUnion.
Proof.
  intros Hk Hlit.
  assert (Hq : qualifier (sc_lit k) c flags = None) by (destruct Hlit as [-> | ->]; reflexivity).
  assert (Hs : String.eqb (sc_lit k) "struct" || String.eqb (sc_lit k) "union" = true)
    by (destruct Hlit as [-> | ->]; reflexivity).
  split; [| split; [| split]].
  - intros Hx Hqx Hns Hnu. cbn [parse_retry].
    change (tok (parserAt src k (x :: rest))) with (sc_tok k).
    change (tok (parserAt src x rest)) with (sc_tok x). rewrite Hk, Hx.
    unfold ident. change (lit (parserAt src k (x :: rest))) with (sc_lit k).
    change (lit (parserAt src x rest)) with (sc_lit x).
    rewrite Hq, Hs, (isQualifier_false _ c flags Hqx).
    change (next (parserAt src k (x :: rest))) with (parserAt src x rest).
    change (tok (parserAt src x rest)) with (sc_tok x). rewrite Hx.
    destruct (String.eqb_spec (sc_lit x) "struct"); [contradiction|].
    destruct (String.eqb_spec (sc_lit x) "union"); [contradiction|].
    reflexivity.
  - intros Hx. cbn [parse_retry].
    change (tok (parserAt src k (x :: rest))) with (sc_tok k). rewrite Hk.
    unfold ident. change (lit (parserAt src k (x :: rest))) with (sc_lit k).
    rewrite Hq, Hs. change (next (parserAt src k (x :: rest))) with (parserAt src x rest).
    change (tok (parserAt src x rest)) with (sc_tok x). rewrite Hx.
    cbn [Token_eqb negb bind]. destruct t; [reflexivity|].
    change (lit (parserAt src x rest)) with (sc_lit x).
    destruct (lookupType ct sc (parserAt src x rest) (sc_lit x) flags); reflexivity.
  - intros Hx. cbn [parse_retry].
    change (tok (parserAt src k (x :: rest))) with (sc_tok k). rewrite Hk.
    unfold ident. change (lit (parserAt src k (x :: rest))) with (sc_lit k).
    rewrite Hq, Hs. change (next (parserAt src k (x :: rest))) with (parserAt src x rest).
    change (tok (parserAt src x rest)) with (sc_tok x).
    destruct (sc_tok x); try reflexivity. contradiction.
  - cbn [parse_retry]. change (tok (parserAt src k [])) with (sc_tok k). rewrite Hk.
    unfold ident. change (lit (parserAt src k [])) with (sc_lit k).
    rewrite Hq, Hs. reflexivity.
Qed.

Lemma struct_tag_witness :
  parse_retry lp64 [[("Foo", Named "Foo")]] 3 0 None false 0
    (parserAt "struct Foo *" (mkScanned 0 IDENT "struct")
       [mkScanned 7 IDENT "Foo"; mkScanned 11 MUL "*"]) =
  parse_retry lp64 [[("Foo", Named "Foo")]] 3 0 None false 0
    (parserAt "struct Foo *" (mkScanned 7 IDENT "Foo") [mkScanned 11 MUL "*"]).
Proof.
  destruct (struct_tag lp64 [[("Foo", Named "Foo")]] 2 0 0 None false "struct Foo *"
              (mkScanned 0 IDENT "struct") (mkScanned 7 IDENT "Foo") [mkScanned 11 MUL "*"]
              eq_refl (or_introl eq_refl)) as (H & _ & _ & _).
  apply H; [reflexivity | reflexivity | discriminate | discriminate].
Defined.

Lemma qualifier_flags_pending (l : string) (c c' : bool) (flags flags' : Z) :
  qualifier l c flags = Some (c', flags') -> flags <> 0 -> flags' <> 0.
Proof.
  unfold qualifier.
  repeat match goal with
         | |- (if ?b then _ else _) = _ -> _ => destruct b
         end; intros H; try discriminate; injection H as _ <-; intros Hnz;
    try assumption; intros H0; apply Z.lor_eq_0_iff in H0; tauto.
Qed.

Lemma qualifier_sets_flag (l : string) (c c' : bool) (flags flags' : Z) :
  In l ["unsigned"; "short"; "long"; "signed"; "_Complex"] ->
  qualifier l c flags = Some (c', flags') -> flags' <> 0.
Proof.
  intros Hl. simpl in Hl.
  repeat (destruct Hl as [<-|Hl];
          [unfold qualifier; simpl;
           try destruct (negb (Z.land flags flagLong =? 0));
           intros H; injection H as _ <-; intros H0; apply Z.lor_eq_0_iff in H0;
           destruct H0; discriminate|]).
  contradiction.
Qed.

(** With a type resolved and flags pending, no identifier leads to a
    value. *)
Lemma parse_retry_pending_after_type (ct : CTypes) (sc : Scope) (inFlags : Z) :
  forall (fuel : nat) (t0 : type) (c : bool) (flags : Z) (p : parser),
  tok p = IDENT ->
  flags <> 0 \/ In (lit p) ["unsigned"; "short"; "long"; "signed"; "_Complex"] ->
  match parse_retry ct sc fuel inFlags (Some t0) c flags p with
  | Ok _ _ => False
  | Err e => exists q, e = newError q "illegal syntax: multiple types?"
  | Fatal f => f = FatalStructUnion
  | OutOfFuel => True
  end.
Proof.
  induction fuel as [|f IH]; intros t0 c flags p Htok Hpend; [exact I|].
  cbn [parse_retry]. rewrite Htok. unfold ident.
  destruct (qualifier (lit p) c flags) as [[c' fl']|] eqn:Eq; cbn [bind].
  - assert (Hfl : fl' <> 0).
    { destruct Hpend as [H|H];
        [eapply qualifier_flags_pending | eapply qualifier_sets_flag]; eassumption. }
    destruct (Z.eqb_spec fl' 0) as [|_]; [contradiction|]. cbn [negb].
    destruct (Token_eqb (tok (next p)) IDENT) eqn:E.
    + apply Token_eqb_eq in E. apply IH; auto.
    + eexists. reflexivity.
  - destruct (String.eqb (lit p) "struct" || String.eqb (lit p) "union").
    + destruct (negb (Token_eqb (tok (next p)) IDENT)); cbn [bind]; [reflexivity|].
      eexists. reflexivity.
    + cbn [bind]. eexists. reflexivity.
Qed.

(** X12: a qualifier that sets a flag ([unsigned], [short], [long],
    [signed], [_Complex]) behind the base type never gives a value: whatever
    follows, the call returns the error "illegal syntax: multiple types?"
    (or the process ends at a [struct] with no tag).  So [int unsigned] is
    rejected where [unsigned int] is accepted. *)
Theorem qualifier_after_type (ct : CTypes) (sc : Scope) (fuel : nat) (inFlags flags : Z)
    (t0 : type) (c : bool) (p : parser) :
  tok p = IDENT ->
  In (lit p) ["unsigned"; "short"; "long"; "signed"; "_Complex"] ->
  (measure p < fuel)%nat ->
  (exists q, parse_retry ct sc fuel inFlags (Some t0) c flags p =
               Err (newError q "illegal syntax: multiple types?")) \/
  parse_retry ct sc fuel inFlags (Some t0) c flags p = Fatal FatalStructUnion.
Proof.
  intros Htok Hlit Hm.
  pose proof (parse_retry_pending_after_type ct sc inFlags fuel t0 c flags p Htok
                (or_intror Hlit)) as H.
  pose proof (parse_retry_good ct sc p fuel inFlags (Some t0) c flags p (reach_refl p) Hm)
    as Hg.
  destruct (parse_retry ct sc fuel inFlags (Some t0) c flags p) as [a p'|e|f|].
  - contradiction.
  - left. destruct H as (q & ->). exists q. reflexivity.
  - right. rewrite H. reflexivity.
  - contradiction.
Qed.

Lemma qualifier_after_type_witness :
  (exists q,
     parse_retry lp64 cscope 2 0 (Some (Basic Int32)) false 0
       (parserAt "int unsigned" (mkScanned 4 IDENT "unsigned") []) =
     Err (newError q "illegal syntax: multiple types?")) \/
  parse_retry lp64 cscope 2 0 (Some (Basic Int32)) false 0
    (parserAt "int unsigned" (mkScanned 4 IDENT "unsigned") []) = Fatal FatalStructUnion.
Proof.
  assert (Hm : (measure (parserAt "int unsigned" (mkScanned 4 IDENT "unsigned") []) < 2)%nat)
    by (vm_compute; lia).
  exact (qualifier_after_type lp64 cscope 2 0 0 (Basic Int32) false
           (parserAt "int unsigned" (mkScanned 4 IDENT "unsigned") [])
           eq_refl (or_introl eq_refl) Hm).
Defined.

(** ** Constness *)

Lemma qualifier_const (l : string) (c : bool) (flags : Z) :
  qualifier l true flags =
    match qualifier l c flags with
    | Some (_, fl) => Some (true, fl)
    | None => None
    end.
Proof.
  unfold qualifier.
  repeat match goal with
         | |- context [if ?b then _ else _] => destruct b
         end; reflexivity.
Qed.

Lemma withConst_bind {A : Type} (m : result A) (k : A -> parser -> result (type * bool)) :
  withConst (bind m k) = bind m (fun a p => withConst (k a p)).
Proof. destruct m; reflexivity. Qed.

Lemma parse_retry_withConst (ct : CTypes) (sc : Scope) :
  forall (fuel : nat) (inFlags : Z) (t : option type) (c : bool) (flags : Z) (p : parser),
  parse_retry ct sc fuel inFlags t true flags p =
    withConst (parse_retry ct sc fuel inFlags t c flags p).
Proof.
  induction fuel as [|f IH]; intros inFlags t c flags p; [reflexivity|].
  cbn [parse_retry]. destruct (tok p); try reflexivity.
  - destruct t; reflexivity.
  - unfold ident. rewrite (qualifier_const (lit p) c flags).
    destruct (qualifier (lit p) c flags) as [[c' fl']|]; cbn [bind].
    + destruct (negb (fl' =? 0)); [| apply IH].
      destruct (Token_eqb (tok (next p)) IDENT); [apply IH|].
      destruct t; [reflexivity|].
      destruct (lookupType ct sc (next p) "int" fl'); cbn [bind]; try reflexivity.
      apply IH.
    + destruct (if String.eqb (lit p) "struct" || String.eqb (lit p) "union"
                then if negb (Token_eqb (tok (next p)) IDENT)
                     then Fatal FatalStructUnion else Ok tt (next p)
                else Ok tt p) as [u p1| | |]; cbn [bind]; try reflexivity.
      destruct t; [reflexivity|].
      destruct (lookupType ct sc p1 (lit p1) flags); cbn [bind]; try reflexivity.
      cbn [negb Z.eqb]. apply IH.
  - destruct t; [apply IH | reflexivity].
  - destruct t as [t|]; [| reflexivity].
    destruct (expect2 MUL XOR p) as [p1 [e|]].
    { destruct (getRetType inFlags); reflexivity. }
    destruct (nextTokWith _ (S f) false [] p1) as [[isRetFn args] p2| | |]; cbn [bind];
      try reflexivity.
    assert (Hafter : forall r : result type,
              (let* (t0, p3) := r in
               if isRetFn then
                 if getRetType inFlags then Ok (t0, true) (setEOF p3)
                 else parse_retry ct sc f inFlags (Some (Signature args (Some t0))) true flags (next p3)
               else
                 match t0 with
                 | Signature _ _ => parse_retry ct sc f inFlags (Some t0) true flags (next p3)
                 | _ => parse_retry ct sc f inFlags (Some (Pointer t0)) true flags (next p3)
                 end) =
              withConst
                (let* (t0, p3) := r in
                 if isRetFn then
                   if getRetType inFlags then Ok (t0, c) (setEOF p3)
                   else parse_retry ct sc f inFlags (Some (Signature args (Some t0))) c flags (next p3)
                 else
                   match t0 with
                   | Signature _ _ => parse_retry ct sc f inFlags (Some t0) c flags (next p3)
                   | _ => parse_retry ct sc f inFlags (Some (Pointer t0)) c flags (next p3)
                   end)).
    { intros r. destruct r as [t0 p3| | |]; cbn [bind]; try reflexivity.
      destruct isRetFn; [destruct (getRetType inFlags); [reflexivity | apply IH]|].
      destruct t0; apply IH. }
    destruct (tok (next p2)); try reflexivity; apply Hafter.
  - destruct t; reflexivity.
  - destruct (parseArrays (S f) t inFlags p); cbn [bind]; try reflexivity. apply IH.
  - destruct t; reflexivity.
Qed.

(** X13: the constness is only ever set: any call started with the
    constness set returns what the same call started without it returns,
    with the constness set; the type, the error and the parser left do not
    depend on it.  And at the identifier [const], with no flags pending, the
    call does nothing but set it and go on with the next token, behind the
    type as well as before it. *)
Theorem const_only_sets (ct : CTypes) (sc : Scope) (fuel : nat) (inFlags : Z)
    (t : option type) (c : bool) (flags : Z) (p : parser) :
  parse_retry ct sc fuel inFlags t true flags p =
    withConst (parse_retry ct sc fuel inFlags t c flags p) /\
  (tok p = IDENT ->
   lit p = "const" ->
   parse_retry ct sc (S fuel) inFlags t c 0 p =
     withConst (parse_retry ct sc fuel inFlags t c 0 (next p))).
Proof.
  split; [apply parse_retry_withConst|]. intros Htok Hlit.
  cbn [parse_retry]. rewrite Htok. unfold ident. rewrite Hlit. cbn [qualifier String.eqb].
  simpl. apply parse_retry_withConst.
Qed.

Lemma const_only_sets_witness :
  parse_retry lp64 cscope 3 0 (Some (Basic Int8)) false 0
    (parserAt "char const *" (mkScanned 5 IDENT "const") [mkScanned 11 MUL "*"]) =
  Ok (Pointer (Basic Int8), true) (next (parserAt "char const *" (mkScanned 11 MUL "*") [])).
Proof.
  destruct (const_only_sets lp64 cscope 2 0 (Some (Basic Int8)) false 0
              (parserAt "char const *" (mkScanned 5 IDENT "const") [mkScanned 11 MUL "*"]))
    as (_ & H).
  rewrite (H eq_refl eq_refl). reflexivity.
Defined.

(** ** Runs of stars and of bracket groups *)

Lemma parse_retry_stars (ct : CTypes) (sc : Scope) (src : string) (inFlags flags : Z)
    (c : bool) (rest : list scanned) (fuel : nat) :
  forall (l : list scanned) (x : scanned) (t : type),
  sc_tok x = MUL -> Forall (fun y => sc_tok y = MUL) l ->
  parse_retry ct sc (S (List.length l) + fuel) inFlags (Some t) c flags
    (parserAt src x (l ++ rest)) =
  parse_retry ct sc fuel inFlags (Some (Nat.iter (S (List.length l)) newPointer t)) c flags
    (next (parserOver src rest)).
Proof.
  induction l as [|y l IH]; intros x t Hx Hl.
  - cbn [List.length Nat.add parse_retry]. change (tok (parserAt src x ([] ++ rest))) with (sc_tok x).
    rewrite Hx. reflexivity.
  - inversion Hl as [|? ? Hy Hl']; subst.
    change (S (List.length (y :: l)) + fuel)%nat with (S (S (List.length l) + fuel)).
    cbn [parse_retry]. change (tok (parserAt src x ((y :: l) ++ rest))) with (sc_tok x).
    rewrite Hx. change (next (parserAt src x ((y :: l) ++ rest))) with (parserAt src y (l ++ rest)).
    rewrite IH by assumption.
    change (List.length (y :: l)) with (S (List.length l)).
    rewrite <- Nat.iter_succ_r. reflexivity.
Qed.

Lemma iter_newPointer (k : nat) (t : type) :
  Nat.iter (S k) newPointer t =
    if NotVoid t then Nat.iter (S k) Pointer t else Nat.iter k Pointer (Basic UnsafePointer).
Proof.
  induction k as [|k IH].
  - reflexivity.
  - change (Nat.iter (S (S k)) newPointer t) with (newPointer (Nat.iter (S k) newPointer t)).
    rewrite IH. destruct (NotVoid t).
    + reflexivity.
    + destruct k; reflexivity.
Qed.

Lemma parse_retry_name (ct : CTypes) (sc : Scope) (fuel : nat) (inFlags : Z) (c : bool)
    (p : parser) (T : type) :
  tok p = IDENT ->
  isQualifier (lit p) = false ->
  lit p <> "struct" -> lit p <> "union" -> lit p <> "int" ->
  LookupParent sc (lit p) = Some T ->
  parse_retry ct sc (S fuel) inFlags None c 0 p =
    parse_retry ct sc fuel inFlags (Some T) c 0 (next p).
Proof.
  intros Htok Hq Hs Hu Hi Hlook. cbn [parse_retry]. rewrite Htok.
  unfold ident. rewrite (isQualifier_false _ c 0 Hq).
  destruct (String.eqb_spec (lit p) "struct"); [contradiction|].
  destruct (String.eqb_spec (lit p) "union"); [contradiction|].
  cbn [orb bind]. unfold lookupType. cbn [Z.eqb negb].
  destruct (String.eqb_spec (lit p) "int"); [contradiction|].
  rewrite Hlook. reflexivity.
Qed.

(** X14: a name of the registry followed by stars up to the end of the
    input.  [ParseType] returns the type the registry has for the name, with
    one pointer around it for each star; for a name that resolves to Void,
    the first star gives the unsafe pointer and the others point to it.  The
    constness is clear and every token is read. *)
Theorem ParseFrom_name_stars (ct : CTypes) (sc : Scope) (src : string) (x : scanned)
    (stars : list scanned) (flags : Z) (T : type) :
  sc_tok x = IDENT ->
  isQualifier (sc_lit x) = false ->
  sc_lit x <> "struct" -> sc_lit x <> "union" -> sc_lit x <> "int" ->
  LookupParent sc (sc_lit x) = Some T ->
  Forall (fun y => sc_tok y = MUL) stars ->
  ParseFrom ct sc (parserOver src (x :: stars)) flags =
    Ok (Nat.iter (List.length stars) newPointer T, false) (endOf src) /\
  (T <> Void ->
   Nat.iter (List.length stars) newPointer T = Nat.iter (List.length stars) Pointer T) /\
  (forall k, Nat.iter (S k) newPointer Void = Nat.iter k Pointer (Basic UnsafePointer)).
Proof.
  intros Hx Hq Hs Hu Hi Hlook Hstars. split; [| split].
  - unfold ParseFrom, parse. simpl pending.
    change (next (parserOver src (x :: stars))) with (parserAt src x stars).
    change (List.length (x :: stars)) with (S (List.length stars)).
    rewrite (parse_retry_name ct sc _ flags false (parserAt src x stars) T)
      by assumption.
    destruct stars as [|y stars].
    + reflexivity.
    + inversion Hstars as [|? ? Hy Hst]; subst.
      change (next (parserAt src x (y :: stars))) with (parserAt src y stars).
      rewrite <- (app_nil_r stars) at 2.
      replace (S (List.length (y :: stars))) with (S (List.length stars) + 1)%nat
        by (simpl; lia).
      rewrite parse_retry_stars by assumption. reflexivity.
  - intros HT. destruct stars as [|y stars]; [reflexivity|].
    change (List.length (y :: stars)) with (S (List.length stars)).
    rewrite iter_newPointer. destruct T; try reflexivity. contradiction.
  - intros k. rewrite iter_newPointer. reflexivity.
Qed.

Lemma ParseFrom_name_stars_witness :
  ParseType lp64 cscope "void **" 0 =
    Ok (Pointer (Basic UnsafePointer), false) (endOf "void **").
Proof.
  assert (Hs : "void" <> "struct") by discriminate.
  assert (Hu : "void" <> "union") by discriminate.
  assert (Hi : "void" <> "int") by discriminate.
  assert (Hst : Forall (fun y => sc_tok y = MUL) [mkScanned 5 MUL "*"; mkScanned 6 MUL "*"])
    by (repeat constructor).
  exact (proj1 (ParseFrom_name_stars lp64 cscope "void **" (mkScanned 0 IDENT "void")
                  [mkScanned 5 MUL "*"; mkScanned 6 MUL "*"] 0 Void
                  eq_refl eq_refl Hs Hu Hi eq_refl Hst)).
Defined.

Lemma parseArray_group (src : string) (inFlags : Z) (t : type) (o : scanned)
    (body rest : list scanned) (n : Z) :
  groupLength body = Some n ->
  exists cl,
    parseArray (Some t) inFlags (parserAt src o (body ++ rest)) =
      Ok (arrayOf inFlags t n) (parserAt src cl rest).
Proof.
  unfold groupLength, arrayOf.
  destruct body as [|a [|b [|? ?]]]; try discriminate.
  - destruct (Token_eqb (sc_tok a) RBRACK) eqn:Ea; [| discriminate].
    intros H. injection H as <-. exists a. apply Token_eqb_eq in Ea.
    unfold parseArray. change (next (parserAt src o ([a] ++ rest))) with (parserAt src a rest).
    change (tok (parserAt src a rest)) with (sc_tok a). rewrite Ea. cbn [bind].
    destruct (isParam inFlags); reflexivity.
  - destruct (Token_eqb (sc_tok a) INT) eqn:Ea; [| discriminate].
    destruct (Token_eqb (sc_tok b) RBRACK) eqn:Eb; [| discriminate]. cbn [andb].
    destruct (ParseInt (sc_lit a)) as [m|] eqn:Ep; [| discriminate].
    intros H. injection H as <-. exists b. apply Token_eqb_eq in Ea.
    unfold parseArray.
    change (next (parserAt src o ([a; b] ++ rest))) with (parserAt src a (b :: rest)).
    change (tok (parserAt src a (b :: rest))) with (sc_tok a). rewrite Ea.
    change (lit (parserAt src a (b :: rest))) with (sc_lit a). rewrite Ep.
    unfold expect. change (next (parserAt src a (b :: rest))) with (parserAt src b rest).
    change (tok (parserAt src b rest)) with (sc_tok b). rewrite Eb. cbn [bind].
    destruct (isParam inFlags); reflexivity.
Qed.

Lemma parseArrays_step (n : nat) (t : option type) (inFlags : Z) (p : parser) :
  parseArrays (S n) t inFlags p =
    (let* (ret, p) := parseArray t inFlags p in
     if Token_eqb (tok (next p)) EOF then Ok ret (next p)
     else parseArrays n (Some ret) inFlags (next p)).
Proof. reflexivity. Qed.

(** X15: bracket groups up to the end of the input compose from left to
    right: each group wraps what the groups before it gave, in an Array of
    its length (-1 for an empty group) or, in a parameter, in a pointer.
    The token that opens the second and every later group is not looked at:
    any token that is not EOF is taken for the opening bracket. *)
Theorem parseArrays_groups (src : string) (inFlags : Z) :
  forall (gs : list (scanned * list scanned)) (ns : list Z) (t : type) (o : scanned)
         (body : list scanned) (n : Z),
  groupLength body = Some n ->
  Forall2 (fun g m => sc_tok (fst g) <> EOF /\ groupLength (snd g) = Some m) gs ns ->
  parseArrays (S (List.length gs)) (Some t) inFlags
    (parserAt src o (body ++ groupTokens gs)) =
  Ok (fold_left (arrayOf inFlags) (n :: ns) t) (endOf src).
Proof.
  induction gs as [|[o2 body2] gs IH]; intros ns t o body n Hbody Hall.
  - inversion Hall; subst.
    destruct (parseArray_group src inFlags t o body [] n Hbody) as (cl & Hcl).
    cbn [List.length groupTokens]. rewrite parseArrays_step, Hcl. reflexivity.
  - inversion Hall as [|g m gs' ns' [Ho2 Hm] Hrest]; subst. simpl fst in Ho2. simpl snd in Hm.
    destruct (parseArray_group src inFlags t o body (o2 :: body2 ++ groupTokens gs) n Hbody)
      as (cl & Hcl).
    change (S (List.length ((o2, body2) :: gs))) with (S (S (List.length gs))).
    cbn [groupTokens]. rewrite parseArrays_step, Hcl. cbn [bind].
    change (next (parserAt src cl (o2 :: body2 ++ groupTokens gs)))
      with (parserAt src o2 (body2 ++ groupTokens gs)).
    change (tok (parserAt src o2 (body2 ++ groupTokens gs))) with (sc_tok o2).
    destruct (Token_eqb (sc_tok o2) EOF) eqn:E; [apply Token_eqb_eq in E; contradiction|].
    rewrite (IH ns' (arrayOf inFlags t n) o2 body2 m Hm Hrest). reflexivity.
Qed.

Lemma parseArrays_groups_witness :
  parseArrays 2 (Some (Basic Int32)) 0
    (parserAt "int [2]*]" (mkScanned 4 LBRACK "[")
       [mkScanned 5 INT "2"; mkScanned 6 RBRACK "]"; mkScanned 7 MUL "*";
        mkScanned 8 RBRACK "]"]) =
  Ok (Array (Array (Basic Int32) 2) (-1)) (endOf "int [2]*]").
Proof.
  assert (Hall : Forall2 (fun g m => sc_tok (fst g) <> EOF /\ groupLength (snd g) = Some m)
                   [(mkScanned 7 MUL "*", [mkScanned 8 RBRACK "]"])] [-1]).
  { repeat constructor. discriminate. }
  exact (parseArrays_groups "int [2]*]" 0
           [(mkScanned 7 MUL "*", [mkScanned 8 RBRACK "]"])] [-1] (Basic Int32)
           (mkScanned 4 LBRACK "[") [mkScanned 5 INT "2"; mkScanned 6 RBRACK "]"] 2
           eq_refl Hall).
Defined.

(** ** Leading qualifiers *)

Lemma ParseFrom_qualifiers_run (ct : CTypes) (sc : Scope) (src : string)
    (qs rest : list scanned) (flags : Z) :
  Forall qualifierToken qs ->
  ParseFrom ct sc (parserOver src (qs ++ rest)) flags =
    (let* (r, p) :=
       afterQualifier ct sc (S (List.length rest)) flags
         (fold_left qualify (map sc_lit qs) (false, 0)) (next (parserOver src rest)) in
     if negb (Token_eqb (tok p) EOF)
     then Err (newError p ("unexpect token " ++ Token_String (tok p)))
     else Ok r p).
Proof.
  intros Hqs. unfold ParseFrom, parse. simpl pending.
  destruct qs as [|x qs]; [reflexivity|].
  inversion Hqs; subst.
  rewrite <- app_comm_cons, next_parserOver_cons.
  replace (S (List.length (x :: qs ++ rest)))
    with (List.length qs + S (S (List.length rest)))%nat
    by (simpl; rewrite length_app; lia).
  change (parse_retry ct sc (List.length qs + S (S (List.length rest))) flags None false 0)
    with (parse_retry ct sc (List.length qs + S (S (List.length rest))) flags None
            (fst (false, 0)) (snd (false, 0))).
  rewrite qualifiers_run by assumption. reflexivity.
Qed.

Lemma map_lit_eraseToken (qs : list scanned) :
  map sc_lit (map eraseToken qs) = map sc_lit qs.
Proof. rewrite map_map. reflexivity. Qed.

(** X16: the qualifiers at the head of an input count only through the
    constness and the flags they add up to.  Two inputs whose leading
    qualifiers add up to the same, followed by the same tokens, parse to the
    same value or both fail.  The keywords [volatile], [restrict],
    [_Nullable] and [_Nonnull] add nothing, so they can be left out; a
    keyword said twice adds what it adds once; and [long] adds nothing from
    the third time on. *)
Theorem leading_qualifiers (ct : CTypes) (sc : Scope) (s1 s2 : string)
    (qs1 qs2 rest1 rest2 : list scanned) (flags : Z) :
  scanAll 0 s1 None = (qs1 ++ rest1)%list ->
  scanAll 0 s2 None = (qs2 ++ rest2)%list ->
  Forall qualifierToken qs1 ->
  Forall qualifierToken qs2 ->
  fold_left qualify (map sc_lit qs1) (false, 0) =
    fold_left qualify (map sc_lit qs2) (false, 0) ->
  map eraseToken rest1 = map eraseToken rest2 ->
  val (ParseType ct sc s1 flags) = val (ParseType ct sc s2 flags) /\
  (forall st k, In k ["volatile"; "restrict"; "_Nullable"; "_Nonnull"] ->
     qualify st k = st) /\
  (forall st k, In k keywords -> k <> "long" -> flagSet (snd st) = true ->
     qualify (qualify st k) k = qualify st k) /\
  (forall st, flagSet (snd st) = true ->
     qualify (qualify (qualify st "long") "long") "long" =
     qualify (qualify st "long") "long").
Proof.
  intros Hs1 Hs2 H1 H2 Hfold Hrest. split; [| split; [| split]].
  - unfold ParseType, newParser, Init. rewrite Hs1, Hs2.
    change (mkParser (mkScanner s1 (qs1 ++ rest1)) 0 ILLEGAL "")
      with (parserOver s1 (qs1 ++ rest1)).
    change (mkParser (mkScanner s2 (qs2 ++ rest2)) 0 ILLEGAL "")
      with (parserOver s2 (qs2 ++ rest2)).
    rewrite <- (val_eraseResult (ParseFrom ct sc (parserOver s1 _) flags)), <- ParseFrom_erase.
    rewrite <- (val_eraseResult (ParseFrom ct sc (parserOver s2 _) flags)), <- ParseFrom_erase.
    rewrite !erase_parserOver, Hrest.
    rewrite !ParseFrom_qualifiers_run by (apply qualifierToken_erase; assumption).
    rewrite !map_lit_eraseToken, Hfold. reflexivity.
  - intros [c fl] k Hk. simpl in Hk.
    repeat (destruct Hk as [<-|Hk]; [reflexivity|]). contradiction.
  - intros st k Hk Hlong Hst.
    assert (Hall : forallb (fun x => String.eqb x "long" ||
                      everyState (fun st =>
                        state_eqb (qualify (qualify st x) x) (qualify st x)))
                     keywords = true) by (vm_compute; reflexivity).
    rewrite forallb_forall in Hall. specialize (Hall k Hk).
    destruct (String.eqb_spec k "long"); [contradiction|]. simpl in Hall.
    apply state_eqb_eq. exact (everyState_spec _ st Hall Hst).
  - intros st Hst.
    assert (Hall : everyState (fun st =>
                     state_eqb (qualify (qualify (qualify st "long") "long") "long")
                               (qualify (qualify st "long") "long")) = true)
      by (vm_compute; reflexivity).
    apply state_eqb_eq. exact (everyState_spec _ st Hall Hst).
Qed.

Lemma leading_qualifiers_witness :
  val (ParseType lp64 cscope "volatile long unsigned long long char *" 0) =
  val (ParseType lp64 cscope "unsigned long long char *" 0).
Proof.
  assert (Hq : forall n l, In l keywords -> qualifierToken (mkScanned n IDENT l)).
  { intros n l Hl. split; [reflexivity|]. simpl in Hl.
    repeat (destruct Hl as [<-|Hl]; [reflexivity|]). contradiction. }
  destruct (leading_qualifiers lp64 cscope
              "volatile long unsigned long long char *" "unsigned long long char *"
              [mkScanned 0 IDENT "volatile"; mkScanned 9 IDENT "long";
               mkScanned 14 IDENT "unsigned"; mkScanned 23 IDENT "long";
               mkScanned 28 IDENT "long"]
              [mkScanned 0 IDENT "unsigned"; mkScanned 9 IDENT "long";
               mkScanned 14 IDENT "long"]
              [mkScanned 33 IDENT "char"; mkScanned 38 MUL "*"]
              [mkScanned 19 IDENT "char"; mkScanned 24 MUL "*"] 0) as (H & _).
  - reflexivity.
  - reflexivity.
  - repeat constructor; apply Hq; simpl; tauto.
  - repeat constructor; apply Hq; simpl; tauto.
  - reflexivity.
  - reflexivity.
  - exact H.
Defined.

(** ** The loop behind the parenthesized star *)

(** X17: the loop at [nextTok] returns only at a closing parenthesis, and
    once an argument list is captured it returns it unchanged: a second
    argument list inside the parentheses is the error "expect )".  So is an
    identifier other than [_Nullable] and [_Nonnull]: a declarator that
    names what it declares is rejected. *)
Theorem nextTok_closing (f : parser -> result (list type)) (n : nat) (isRetFn b : bool)
    (args a : list type) (p p' : parser) :
  (nextTokWith f n isRetFn args p = Ok (b, a) p' ->
   tok p' = RPAREN /\ (isRetFn = true -> b = true /\ a = args)) /\
  (tok (next p) = LPAREN ->
     nextTokWith f (S n) true args p = Err (newError (next p) "expect )")) /\
  (tok (next p) = IDENT -> lit (next p) <> "_Nullable" -> lit (next p) <> "_Nonnull" ->
     nextTokWith f (S n) isRetFn args p = Err (newError (next p) "expect )")).
Proof.
  split; [| split].
  - revert isRetFn args p. induction n as [|n IH]; intros isRetFn args p; simpl;
      [discriminate|].
    destruct (tok (next p)) eqn:Etok; try discriminate.
    + destruct (String.eqb (lit (next p)) "_Nullable" || String.eqb (lit (next p)) "_Nonnull");
        [apply IH | discriminate].
    + destruct isRetFn; simpl; [discriminate|].
      destruct (f (next p)) as [args' p1| | |]; simpl; try discriminate.
      intros H. apply IH in H. destruct H as [H _]. split; [exact H | discriminate].
    + intros H. injection H as <- <- <-. auto.
  - intros Htok. cbn [nextTokWith]. rewrite Htok. reflexivity.
  - intros Htok Hn1 Hn2. cbn [nextTokWith]. rewrite Htok.
    destruct (String.eqb_spec (lit (next p)) "_Nullable"); [contradiction|].
    destruct (String.eqb_spec (lit (next p)) "_Nonnull"); [contradiction|].
    reflexivity.
Qed.

Lemma nextTok_closing_witness :
  tok (parserAt "int (* _Nonnull)(int)" (mkScanned 15 RPAREN ")") []) = RPAREN.
Proof.
  exact (proj1 (proj1 (nextTok_closing (parseArgs lp64 cscope 4) 2 false false [] []
           (parserAt "int (* _Nonnull)(int)" (mkScanned 5 MUL "*")
              [mkScanned 7 IDENT "_Nonnull"; mkScanned 15 RPAREN ")"])
           (parserAt "int (* _Nonnull)(int)" (mkScanned 15 RPAREN ")") [])) eq_refl)).
Defined.

(** ** The parameter flag *)

Lemma noBracket_next (p : parser) : noBracket p -> noBracket (next p).
Proof.
  unfold noBracket, next, Scan. intros [_ H].
  destruct (pending (s p)) as [|x rest] eqn:E; simpl.
  - rewrite E. split; [discriminate | assumption].
  - inversion H. auto.
Qed.

Lemma noBracket_setEOF (p : parser) : noBracket p -> noBracket (setEOF p).
Proof. unfold noBracket, setEOF. simpl. intros [_ H]. split; [discriminate | assumption]. Qed.

Lemma parse_retry_isParam (ct : CTypes) (sc : Scope) (fl1 fl2 : Z) :
  getRetType fl1 = getRetType fl2 ->
  forall (fuel : nat) (t : option type) (c : bool) (flags : Z) (p : parser),
  noBracket p ->
  parse_retry ct sc fuel fl1 t c flags p = parse_retry ct sc fuel fl2 t c flags p.
Proof.
  intros Hg. induction fuel as [|f IH]; intros t c flags p Hp; [reflexivity|].
  assert (Hloop : forall t c flags q, noBracket q ->
            parse_retry ct sc f fl1 t c flags (next q) =
            parse_retry ct sc f fl2 t c flags (next q)).
  { intros. apply IH. apply noBracket_next. assumption. }
  assert (Hargs : keeps noBracket
            (parseArgsWith (fun q => parse_retry ct sc f FlagIsParam None false 0 (next q))
               (S f) [])).
  { apply (parseArgsWith_keeps noBracket). intros q b q' Hq H.
    apply (parse_retry_keeps noBracket noBracket_next noBracket_setEOF) in H;
      auto using noBracket_next. }
  cbn [parse_retry]. rewrite Hg. destruct (tok p) eqn:Etok; try reflexivity.
  - destruct (ident ct sc t c flags p) as [[[t1 c1] fl'] p1| | |] eqn:E; cbn [bind];
      try reflexivity.
    apply (ident_keeps noBracket noBracket_next) in E; [| assumption].
    destruct (negb (fl' =? 0)); [| apply Hloop; assumption].
    destruct (Token_eqb (tok (next p1)) IDENT); [apply Hloop; assumption|].
    destruct t1; [reflexivity|].
    destruct (lookupType ct sc (next p1) "int" fl') as [t2 p2| | |] eqn:El; cbn [bind];
      try reflexivity.
    apply lookupType_Ok in El. subst p2. apply Hloop; assumption.
  - destruct t; [apply Hloop; assumption | reflexivity].
  - destruct t as [t|]; [| reflexivity]. unfold expect2.
    destruct (Token_eqb (tok (next p)) MUL || Token_eqb (tok (next p)) XOR);
      [| reflexivity].
    destruct (nextTokWith _ (S f) false [] (next p)) as [[isRetFn args] p1| | |] eqn:En;
      cbn [bind]; try reflexivity.
    apply (nextTokWith_keeps noBracket noBracket_next _ Hargs) in En;
      [| apply noBracket_next, Hp].
    pose proof (noBracket_next p1 En) as [Hnb _].
    destruct (tok (next p1)); try reflexivity; try contradiction.
    destruct (parseFuncWith _ t (next p1)) as [t0 p2| | |] eqn:Ef; cbn [bind];
      try reflexivity.
    apply (parseFuncWith_keeps noBracket _ t Hargs) in Ef; [| apply noBracket_next, En].
    destruct isRetFn; [destruct (getRetType fl2); [reflexivity | apply Hloop; assumption]|].
    destruct t0; apply Hloop; assumption.
  - destruct Hp as [Hp _]. contradiction.
Qed.

(** X18: the parameter flag matters to bracket groups only: for an input
    with no opening bracket, [ParseType] with [IsParam] set returns what it
    returns with the flag clear. *)
Theorem isParam_only_arrays (ct : CTypes) (sc : Scope) (qualType : string) :
  Forall (fun x => sc_tok x <> LBRACK) (scanAll 0 qualType None) ->
  ParseType ct sc qualType FlagIsParam = ParseType ct sc qualType 0 /\
  ParseType ct sc qualType (Z.lor FlagIsParam FlagGetRetType) =
    ParseType ct sc qualType FlagGetRetType.
Proof.
  intros Hnb.
  assert (Hp : noBracket (next (newParser qualType))).
  { apply noBracket_next. split; [discriminate | exact Hnb]. }
  split; unfold ParseType, ParseFrom, parse.
  - rewrite (parse_retry_isParam ct sc FlagIsParam 0 eq_refl _ None false 0 _ Hp).
    reflexivity.
  - rewrite (parse_retry_isParam ct sc (Z.lor FlagIsParam FlagGetRetType) FlagGetRetType
               eq_refl _ None false 0 _ Hp).
    reflexivity.
Qed.

Lemma isParam_only_arrays_witness :
  ParseType lp64 cscope "const char **" FlagIsParam = ParseType lp64 cscope "const char **" 0.
Proof.
  assert (Hnb : Forall (fun x => sc_tok x <> LBRACK) (scanAll 0 "const char **" None)).
  { vm_compute. repeat constructor; discriminate. }
  exact (proj1 (isParam_only_arrays lp64 cscope "const char **" Hnb)).
Defined.

(** ** The return-type flag *)

Lemma noParen_next (p : parser) : noParen p -> noParen (next p).
Proof.
  unfold noParen, next, Scan. intros [_ H].
  destruct (pending (s p)) as [|x rest] eqn:E; simpl.
  - rewrite E. split; [discriminate | assumption].
  - inversion H. auto.
Qed.

Lemma noParen_setEOF (p : parser) : noParen p -> noParen (setEOF p).
Proof. unfold noParen, setEOF. simpl. intros [_ H]. split; [discriminate | assumption]. Qed.

Lemma parseArrays_isParam (fl1 fl2 : Z) :
  isParam fl1 = isParam fl2 ->
  forall (n : nat) (t : option type) (p : parser),
  parseArrays n t fl1 p = parseArrays n t fl2 p.
Proof.
  intros Hi. induction n as [|n IH]; intros t p; [reflexivity|].
  rewrite !parseArrays_step.
  assert (E : parseArray t fl1 p = parseArray t fl2 p).
  { unfold parseArray. rewrite Hi. reflexivity. }
  rewrite E. destruct (parseArray t fl2 p) as [ret p1| | |]; cbn [bind]; try reflexivity.
  destruct (Token_eqb (tok (next p1)) EOF); [reflexivity | apply IH].
Qed.

Lemma parse_retry_getRetType (ct : CTypes) (sc : Scope) (fl1 fl2 : Z) :
  isParam fl1 = isParam fl2 ->
  forall (fuel : nat) (t : option type) (c : bool) (flags : Z) (p : parser),
  noParen p ->
  parse_retry ct sc fuel fl1 t c flags p = parse_retry ct sc fuel fl2 t c flags p.
Proof.
  intros Hi. induction fuel as [|f IH]; intros t c flags p Hp; [reflexivity|].
  assert (Hloop : forall t c flags q, noParen q ->
            parse_retry ct sc f fl1 t c flags (next q) =
            parse_retry ct sc f fl2 t c flags (next q)).
  { intros. apply IH. apply noParen_next. assumption. }
  cbn [parse_retry]. destruct (tok p) eqn:Etok; try reflexivity.
  - destruct (ident ct sc t c flags p) as [[[t1 c1] fl'] p1| | |] eqn:E; cbn [bind];
      try reflexivity.
    apply (ident_keeps noParen noParen_next) in E; [| assumption].
    destruct (negb (fl' =? 0)); [| apply Hloop; assumption].
    destruct (Token_eqb (tok (next p1)) IDENT); [apply Hloop; assumption|].
    destruct t1; [reflexivity|].
    destruct (lookupType ct sc (next p1) "int" fl') as [t2 p2| | |] eqn:El; cbn [bind];
      try reflexivity.
    apply lookupType_Ok in El. subst p2. apply Hloop; assumption.
  - destruct t; [apply Hloop; assumption | reflexivity].
  - destruct Hp as [Hp _]. contradiction.
  - rewrite (parseArrays_isParam fl1 fl2 Hi).
    destruct (parseArrays (S f) t fl2 p) as [t' p1| | |] eqn:Ea; cbn [bind];
      try reflexivity.
    apply (parseArrays_keeps noParen noParen_next) in Ea; [| assumption].
    apply Hloop; assumption.
Qed.

(** X19: the return-type flag matters at parentheses only: for an input
    with no opening parenthesis, [ParseType] with [GetRetType] set returns
    what it returns with the flag clear. *)
Theorem getRetType_only_parens (ct : CTypes) (sc : Scope) (qualType : string) :
  Forall (fun x => sc_tok x <> LPAREN) (scanAll 0 qualType None) ->
  ParseType ct sc qualType FlagGetRetType = ParseType ct sc qualType 0 /\
  ParseType ct sc qualType (Z.lor FlagIsParam FlagGetRetType) =
    ParseType ct sc qualType FlagIsParam.
Proof.
  intros Hnp.
  assert (Hp : noParen (next (newParser qualType))).
  { apply noParen_next. split; [discriminate | exact Hnp]. }
  split; unfold ParseType, ParseFrom, parse.
  - rewrite (parse_retry_getRetType ct sc FlagGetRetType 0 eq_refl _ None false 0 _ Hp).
    reflexivity.
  - rewrite (parse_retry_getRetType ct sc (Z.lor FlagIsParam FlagGetRetType) FlagIsParam
               eq_refl _ None false 0 _ Hp).
    reflexivity.
Qed.

Lemma getRetType_only_parens_witness :
  ParseType lp64 cscope "unsigned char [16]" FlagGetRetType =
  ParseType lp64 cscope "unsigned char [16]" 0.
Proof.
  assert (Hnp : Forall (fun x => sc_tok x <> LPAREN) (scanAll 0 "unsigned char [16]" None)).
  { vm_compute. repeat constructor; discriminate. }
  exact (proj1 (getRetType_only_parens lp64 cscope "unsigned char [16]" Hnp)).
Defined.
